(** * Mirage backend: the client registry and the model proxies

    A shallow embedding of [src/backend/backend.py] (class [Backend]) and
    [src/backend/models/proxy.py] (class [ModelProxy]), with the
    properties of the specification that concern them.

    Python dictionaries keep insertion order, and several of the
    operations below depend on it ([get_any_client] scans
    [self.clients.values()], [get_flat_mainpane_data] walks the values of
    a model), so dictionaries whose order is observed are association
    lists with the update discipline of [dict]. *)

From Stdlib Require Import List String Ascii Bool Arith NArith Lia QArith Sorted.
From stdpp Require Import base decidable option list strings gmap.
Import ListNotations.

Local Open Scope nat_scope.
Local Open Scope list_scope.

(** ** Insertion-ordered dictionaries *)

Abbreviation odict K V := (list (K * V)).

Section odict.
Context {K V : Type} `{EqDecision K}.

(** [d.get(k)] *)
Fixpoint od_get (k : K) (d : odict K V) : option V :=
  match d with
  | [] => None
  | (k', v) :: d' => if decide (k = k') then Some v else od_get k d'
  end.

(** [k in d] *)
Definition od_mem (k : K) (d : odict K V) : bool :=
  match od_get k d with Some _ => true | None => false end.

(** [d[k] = v]: an existing key keeps its position, a new one goes last. *)
Fixpoint od_set (k : K) (v : V) (d : odict K V) : odict K V :=
  match d with
  | [] => [(k, v)]
  | (k', v') :: d' =>
      if decide (k = k') then (k, v) :: d' else (k', v') :: od_set k v d'
  end.

(** Removal of the binding of [k], if any. *)
Fixpoint od_remove (k : K) (d : odict K V) : odict K V :=
  match d with
  | [] => []
  | (k', v') :: d' =>
      if decide (k = k') then od_remove k d' else (k', v') :: od_remove k d'
  end.

(** [d.pop(k, None)] *)
Definition od_pop (k : K) (d : odict K V) : option V * odict K V :=
  (od_get k d, od_remove k d).

Definition od_keys (d : odict K V) : list K := map fst d.
Definition od_values (d : odict K V) : list V := map snd d.

(** A dictionary has one binding per key. *)
Definition od_wf (d : odict K V) : Prop := NoDup (od_keys d).

Lemma od_get_set_eq k v d : od_get k (od_set k v d) = Some v.
Proof.
  induction d as [|[k' v'] d IH]; simpl.
  - by rewrite decide_True.
  - destruct (decide (k = k')) as [->|Hne]; simpl.
    + by rewrite decide_True.
    + by rewrite decide_False.
Qed.

Lemma od_get_set_ne k k' v d : k ≠ k' → od_get k' (od_set k v d) = od_get k' d.
Proof.
  intros Hne. induction d as [|[k1 v1] d IH]; simpl.
  - by rewrite decide_False.
  - destruct (decide (k = k1)) as [->|Hk]; simpl.
    + by rewrite !decide_False.
    + by rewrite IH.
Qed.

Lemma od_get_remove_eq k d : od_get k (od_remove k d) = None.
Proof.
  induction d as [|[k' v'] d IH]; simpl; [done|].
  destruct (decide (k = k')); simpl; [done|]. by rewrite decide_False.
Qed.

Lemma od_get_remove_ne k k' d : k ≠ k' → od_get k' (od_remove k d) = od_get k' d.
Proof.
  intros Hne. induction d as [|[k1 v1] d IH]; simpl; [done|].
  destruct (decide (k = k1)) as [->|Hk]; simpl.
  - by rewrite decide_False.
  - by rewrite IH.
Qed.

Lemma od_get_None k d : od_get k d = None ↔ k ∉ od_keys d.
Proof.
  induction d as [|[k' v'] d IH]; simpl.
  - split; [intros _; apply not_elem_of_nil | done].
  - rewrite not_elem_of_cons, <- IH.
    destruct (decide (k = k')); [split; [done | tauto] | tauto].
Qed.

Lemma od_get_Some_elem k v d : od_get k d = Some v → (k, v) ∈ d.
Proof.
  induction d as [|[k' v'] d IH]; simpl; [done|].
  destruct (decide (k = k')) as [->|]; intros Hg.
  - injection Hg as ->. apply list_elem_of_here.
  - apply list_elem_of_further; auto.
Qed.

Lemma od_elem_get k v d : od_wf d → (k, v) ∈ d → od_get k d = Some v.
Proof.
  unfold od_wf, od_keys.
  induction d as [|[k' v'] d IH]; simpl; intros Hnd Hin.
  - by apply elem_of_nil in Hin.
  - apply NoDup_cons in Hnd as [Hk' Hnd].
    apply elem_of_cons in Hin as [Heq|Hin].
    + injection Heq as -> ->. by rewrite decide_True.
    + rewrite decide_False; [by apply IH|].
      intros ->. apply Hk'. apply list_elem_of_fmap. by exists (k', v).
Qed.

Lemma od_mem_true k d : od_mem k d = true ↔ is_Some (od_get k d).
Proof.
  unfold od_mem. destruct (od_get k d); split; try done.
Qed.

(** Removing an absent key changes nothing. *)
Lemma od_remove_absent k d : od_get k d = None → od_remove k d = d.
Proof.
  induction d as [|[k' v'] d IH]; simpl; [done|].
  destruct (decide (k = k')); [done|]. intros Hg. by rewrite IH.
Qed.

Lemma od_remove_filter k d : od_remove k d = filter (λ e, e.1 ≠ k) d.
Proof.
  induction d as [|[k' v'] d IH]; simpl; [done|].
  destruct (decide (k = k')) as [->|Hne].
  - rewrite filter_cons_False; [done | simpl; tauto].
  - rewrite filter_cons_True; [by rewrite IH | simpl; congruence].
Qed.

Lemma od_keys_set k v d :
  od_keys (od_set k v d) =
    if od_mem k d then od_keys d else od_keys d ++ [k].
Proof.
  unfold od_mem. induction d as [|[k' v'] d IH]; simpl; [done|].
  destruct (decide (k = k')) as [->|Hne]; simpl; [done|].
  rewrite IH. by destruct (od_get k d).
Qed.

Lemma od_wf_set k v d : od_wf d → od_wf (od_set k v d).
Proof.
  unfold od_wf. rewrite od_keys_set. intros Hnd.
  destruct (od_mem k d) eqn:Hm; [done|].
  apply NoDup_app. split_and!; [done| |apply NoDup_singleton].
  intros x Hx Hx'. apply list_elem_of_singleton in Hx' as ->.
  assert (od_get k d = None) as Hn.
  { unfold od_mem in Hm. by destruct (od_get k d). }
  by apply od_get_None in Hn.
Qed.

Lemma od_wf_remove k d : od_wf d → od_wf (od_remove k d).
Proof.
  unfold od_wf, od_keys. rewrite od_remove_filter.
  induction d as [|[k' v'] d IH]; simpl; [done|].
  intros [Hk' Hnd]%NoDup_cons.
  destruct (decide (k' ≠ k)).
  - rewrite filter_cons_True by done. simpl. apply NoDup_cons. split; [|auto].
    intros (e & He1 & He2)%list_elem_of_fmap. apply list_elem_of_filter in He2 as [_ He2].
    apply Hk'. apply list_elem_of_fmap. eauto.
  - rewrite filter_cons_False by done. auto.
Qed.
(** Setting a key that was absent and removing it again gives the
    dictionary back. *)
Lemma od_remove_set k v d : od_get k d = None → od_remove k (od_set k v d) = d.
Proof.
  induction d as [|[k' v'] d IH]; simpl.
  - intros _. by rewrite decide_True.
  - destruct (decide (k = k')) as [->|Hne]; [done|]. intros Hg. simpl.
    rewrite decide_False by done. by rewrite IH.
Qed.

Lemma od_keys_set_absent k v d :
  od_get k d = None → od_keys (od_set k v d) = od_keys d ++ [k].
Proof. intros Hg. rewrite od_keys_set. unfold od_mem. by rewrite Hg. Qed.

Lemma od_elem_remove k k' v d : (k', v) ∈ od_remove k d ↔ k' ≠ k ∧ (k', v) ∈ d.
Proof. rewrite od_remove_filter, list_elem_of_filter. done. Qed.
Lemma od_set_absent k v d : od_get k d = None → od_set k v d = d ++ [(k, v)].
Proof.
  induction d as [|[k' v'] d IH]; simpl; [done|].
  destruct (decide (k = k')); [done|]. intros Hg. by rewrite IH.
Qed.

Lemma od_get_snoc k k' v d :
  od_get k (d ++ [(k', v)]) =
    match od_get k d with
    | Some x => Some x
    | None => if decide (k = k') then Some v else None
    end.
Proof.
  induction d as [|[k1 v1] d IH]; simpl; [done|].
  by destruct (decide (k = k1)).
Qed.
End odict.

(** Two filters that agree on the elements of a list select the same
    sublist. *)
Lemma filter_ext_elem {A} (P Q : A → Prop)
    `{∀ x, Decision (P x)} `{∀ x, Decision (Q x)} (l : list A) :
  (∀ x, x ∈ l → P x ↔ Q x) → filter P l = filter Q l.
Proof.
  induction l as [|x l IH]; intros Hpq; [done|].
  rewrite !filter_cons.
  assert (P x ↔ Q x) as Hx by (apply Hpq, list_elem_of_here).
  rewrite IH by (intros y Hy; apply Hpq, list_elem_of_further, Hy).
  destruct (decide (P x)), (decide (Q x)); tauto || done.
Qed.

Lemma filter_all {A} (P : A → Prop) `{∀ x, Decision (P x)} (l : list A) :
  (∀ x, x ∈ l → P x) → filter P l = l.
Proof.
  induction l as [|x l IH]; intros Hp; [done|].
  rewrite filter_cons_True by apply Hp, list_elem_of_here.
  f_equal. apply IH. intros y Hy. apply Hp, list_elem_of_further, Hy.
Qed.

(** ** Models and model proxies ([models/proxy.py]) *)

Module Models.

(** The item classes of [models/items.py], as the tags that appear in a
    collection identity ([allowed_key_types] in [Backend.__init__]). *)
Inductive ItemType := T_Account | T_Device | T_Event | T_Member | T_Room | T_Upload.

(** Modelled from the spec: the type [SyncId] (its declaration in
    [models/__init__.py] is not among the available sources). A collection
    identity is an immutable tuple of type tags and scope strings. *)
Inductive SyncPart := SType (t : ItemType) | SStr (s : string).
Abbreviation SyncId := (list SyncPart).

(** Keys of a collection: a plain key, or, in a proxy, the pair of the
    identity of the source and the key in the source. A proxy can itself
    be a source, so pairs nest. *)
Inductive Key := KStr (s : string) | KPair (sid : SyncId) (k : Key).

#[global] Instance ItemType_eq_dec : EqDecision ItemType.
Proof. solve_decision. Defined.

#[global] Instance SyncPart_eq_dec : EqDecision SyncPart.
Proof. solve_decision. Defined.

#[global] Instance Key_eq_dec : EqDecision Key.
Proof.
  intros x. induction x as [s|sid k IH]; intros [s'|sid' k'].
  - destruct (decide (s = s')) as [->|Hne]; [by left | right; congruence].
  - right; congruence.
  - right; congruence.
  - destruct (decide (sid = sid')) as [->|Hne]; [|right; congruence].
    destruct (IH k') as [->|Hne]; [by left | right; congruence].
Defined.

Section models.
(** Items are opaque to the store; a value of [ModelItem] stands for the
    item object itself, so that equal values are the same instance. *)
Context {ModelItem : Type}.

Record Model (K : Type) := mkModel {
  sync_id : SyncId;
  data    : odict K ModelItem;
}.
#[global] Arguments mkModel {K}.
#[global] Arguments sync_id {K}.
#[global] Arguments data {K}.

(** Modelled from the spec: [Model.__init__] ([models/model.py] is not
    among the available sources). A collection starts with default-empty
    contents. *)
Definition Model_init {K} (sid : SyncId) : Model K := mkModel sid [].

(** Modelled from the spec: [Model.__setitem__]. [set(key, item)]
    inserts or replaces. The delivery of the change to observers is part
    of the missing file and is not modelled. *)
Definition Model_setitem {K} `{EqDecision K}
    (self : Model K) (key : K) (value : ModelItem) : Model K :=
  mkModel (sync_id self) (od_set key value (data self)).

(** Modelled from the spec: [Model.__delitem__]. [delete(key)] removes
    [key] if present; no-op and no event if absent. *)
Definition Model_delitem {K} `{EqDecision K} (self : Model K) (key : K) : Model K :=
  mkModel (sync_id self) (od_remove key (data self)).

(** A proxy is a model keyed by (identity of the source, key in the
    source); [as_source] is the proxy seen as the source of another
    proxy. *)
Definition ModelProxy := Model (SyncId * Key).

Definition as_source (p : ModelProxy) : Model Key :=
  mkModel (sync_id p) (map (λ e, (KPair e.1.1 e.1.2, e.2)) (data p)).

(** [ModelProxy.accept_source] returns [True]; subclasses override it,
    so the methods below take it as a parameter. *)
Definition accept_source_default (source : Model Key) : bool := true.

Variable accept_source : Model Key → bool.

Definition source_item_set
    (self : ModelProxy) (source : Model Key) (key : Key) (value : ModelItem)
    : ModelProxy :=
  if accept_source source
  then Model_setitem self (sync_id source, key) value
  else self.

Definition source_item_deleted
    (self : ModelProxy) (source : Model Key) (key : Key) : ModelProxy :=
  if accept_source source
  then Model_delitem self (sync_id source, key)
  else self.

(** The loop runs over the keys of [self.copy()], a snapshot taken
    before the first deletion. *)
Definition source_cleared (self : ModelProxy) (source : Model Key) : ModelProxy :=
  if accept_source source then
    fold_left
      (λ self '(source_sync_id, key),
         if decide (source_sync_id = sync_id source)
         then Model_delitem self (source_sync_id, key)
         else self)
      (od_keys (data self)) self
  else self.

(** The inner loop of [__init__]: every item of [model] goes through
    [source_item_set]. *)
Definition mirror_items (self : ModelProxy) (model : Model Key) : ModelProxy :=
  fold_left (λ self '(key, item), source_item_set self model key item)
            (data model) self.

(** The outer loop of [__init__] over [Model.instances.items()]. *)
Definition mirror_instances
    (self : ModelProxy) (instances : odict SyncId (Model Key)) : ModelProxy :=
  fold_left
    (λ self '(sid, model),
       if bool_decide (sid ≠ sync_id self) && accept_source model
       then mirror_items self model
       else self)
    instances self.

(** [ModelProxy.__init__]: the new proxy and the updated [Model.proxies].
    [instances] is [Model.instances] as the loop sees it, after
    [super().__init__]; the entry stored in [Model.proxies] is the proxy
    object, hence its final state. *)
Definition ModelProxy_init
    (sid : SyncId) (instances : odict SyncId (Model Key))
    (proxies : odict SyncId ModelProxy)
    : ModelProxy * odict SyncId ModelProxy :=
  let self := Model_init sid in
  let self := mirror_instances self instances in
  (self, od_set sid self proxies).

(** The registry invariant: one collection per identity, registered under
    its own identity, and one binding per key in each collection. *)
Definition registry_wf (instances : odict SyncId (Model Key)) : Prop :=
  od_wf instances ∧
  ∀ sid m, (sid, m) ∈ instances → sync_id m = sid ∧ od_wf (data m).

(** *** Deletion *)

(** C3. A deletion event from an accepted source for a key that was
    never mirrored, that is, whose composite key (identity of the
    source, key) is absent from the proxy, leaves the proxy unchanged;
    [source_item_deleted] is total, it has no failing outcome. *)
Theorem source_item_deleted_absent (self : ModelProxy) (source : Model Key) (key : Key) :
  accept_source source = true →
  od_get (sync_id source, key) (data self) = None →
  source_item_deleted self source key = self.
Proof.
  intros Hacc Habs. unfold source_item_deleted, Model_delitem.
  rewrite Hacc, od_remove_absent by done. by destruct self.
Qed.

(** *** Clearing *)

Lemma sync_id_delitem (self : ModelProxy) k : sync_id (Model_delitem self k) = sync_id self.
Proof. done. Qed.

Lemma source_cleared_loop (sid : SyncId) (ks : list (SyncId * Key)) (self : ModelProxy) :
  fold_left
    (λ self '(source_sync_id, key),
       if decide (source_sync_id = sid)
       then Model_delitem self (source_sync_id, key)
       else self) ks self
  = mkModel (sync_id self)
      (filter (λ e, ¬ (e.1.1 = sid ∧ e.1 ∈ ks)) (data self)).
Proof.
  revert self. induction ks as [|[s k] ks IH]; intros self; simpl.
  - rewrite filter_all; [by destruct self|].
    intros e _ [_ Hin]. by apply elem_of_nil in Hin.
  - rewrite IH. destruct (decide (s = sid)) as [->|Hne]; simpl; f_equal.
    + rewrite od_remove_filter, list_filter_filter.
      apply filter_ext_elem. intros [[s' k'] v] _; simpl.
      rewrite elem_of_cons. split.
      * intros [H1 H2] [-> [Heq|Hin]]; [congruence | tauto].
      * intros Hn. split; [tauto|]. intros Heq. apply Hn.
        injection Heq as -> ->. tauto.
    + apply filter_ext_elem. intros [[s' k'] v] _; simpl.
      rewrite elem_of_cons. split.
      * intros Hn [-> [Heq|Hin]]; [congruence | tauto].
      * tauto.
Qed.

(** C5. A clear event from an accepted source removes from the proxy
    exactly the entries whose composite key has the identity of that
    source as first component, and keeps every other entry, with its
    item and in its place; from a source that is not accepted it leaves
    the proxy as it is. *)
Theorem source_cleared_exact (self : ModelProxy) (source : Model Key) :
  source_cleared self source =
    if accept_source source
    then mkModel (sync_id self)
           (filter (λ e, e.1.1 ≠ sync_id source) (data self))
    else self.
Proof.
  unfold source_cleared. destruct (accept_source source); [|done].
  rewrite source_cleared_loop. f_equal.
  apply filter_ext_elem. intros [[s k] v] Hin; simpl.
  split; [|tauto]. intros Hn Heq. apply Hn. split; [done|].
  apply list_elem_of_fmap. by exists (s, k, v).
Qed.
(** *** Construction *)

Lemma sync_id_source_item_set (self : ModelProxy) m k v :
  sync_id (source_item_set self m k v) = sync_id self.
Proof. unfold source_item_set. by destruct (accept_source m). Qed.

Lemma sync_id_mirror_items (self : ModelProxy) m :
  sync_id (mirror_items self m) = sync_id self.
Proof.
  unfold mirror_items. generalize (data m) as l. intros l. revert self.
  induction l as [|[k v] l IH]; intros self; simpl; [done|].
  by rewrite IH, sync_id_source_item_set.
Qed.

Lemma sync_id_mirror_instances (self : ModelProxy) instances :
  sync_id (mirror_instances self instances) = sync_id self.
Proof.
  unfold mirror_instances. revert self.
  induction instances as [|[s m] l IH]; intros self; simpl; [done|].
  rewrite IH. destruct (_ && _); [apply sync_id_mirror_items | done].
Qed.

Lemma mirror_items_rejected (self : ModelProxy) m :
  accept_source m = false → mirror_items self m = self.
Proof.
  intros Hacc. unfold mirror_items. generalize (data m) as l.
  induction l as [|[k v] l IH]; simpl; [done|].
  unfold source_item_set at 2. by rewrite Hacc.
Qed.

(** What a lookup in the proxy gives after the items of one accepted
    source were mirrored. *)
Lemma mirror_items_get (self : ModelProxy) m s k :
  accept_source m = true → od_wf (data m) →
  od_get (s, k) (data (mirror_items self m)) =
    if decide (s = sync_id m)
    then match od_get k (data m) with
         | Some v => Some v
         | None => od_get (s, k) (data self)
         end
    else od_get (s, k) (data self).
Proof.
  intros Hacc. unfold mirror_items, od_wf, od_keys.
  generalize (data m) as l. intros l. revert self.
  induction l as [|[k1 v1] l IH]; intros self Hnd; simpl.
  - by destruct (decide _).
  - apply NoDup_cons in Hnd as [Hk1 Hnd]. rewrite IH by done.
    unfold source_item_set. rewrite Hacc. simpl.
    destruct (decide (s = sync_id m)) as [->|Hs].
    + destruct (decide (k = k1)) as [->|Hk].
      * assert (od_get k1 l = None) as -> by by apply od_get_None.
        apply od_get_set_eq.
      * destruct (od_get k l); [done|].
        apply od_get_set_ne. congruence.
    + apply od_get_set_ne. congruence.
Qed.

Lemma mirror_instances_other (self : ModelProxy) instances s k :
  (∀ sid m, (sid, m) ∈ instances → sync_id m = sid ∧ od_wf (data m)) →
  s ∉ od_keys instances →
  od_get (s, k) (data (mirror_instances self instances)) = od_get (s, k) (data self).
Proof.
  unfold mirror_instances, od_keys. revert self.
  induction instances as [|[s1 m1] l IH]; intros self Hwf Hs; simpl; [done|].
  simpl in Hs. apply not_elem_of_cons in Hs as [Hne Hs].
  rewrite IH; [|intros ???; apply Hwf; by apply list_elem_of_further|done].
  destruct (Hwf s1 m1) as [Hid Hm1]; [apply list_elem_of_here|].
  destruct (bool_decide _ && accept_source m1) eqn:Hc; [|done].
  apply andb_true_iff in Hc as [_ Hacc].
  rewrite mirror_items_get by done. rewrite decide_False; [done | congruence].
Qed.

Lemma mirror_instances_forward (self : ModelProxy) instances s m key item :
  registry_wf instances →
  (s, m) ∈ instances → s ≠ sync_id self → accept_source m = true →
  od_get key (data m) = Some item →
  od_get (s, key) (data (mirror_instances self instances)) = Some item.
Proof.
  unfold registry_wf, od_wf, od_keys, mirror_instances. revert self.
  induction instances as [|[s1 m1] l IH]; intros self [Hnd Hwf] Hin Hne Hacc Hget.
  - by apply elem_of_nil in Hin.
  - simpl in Hnd. apply NoDup_cons in Hnd as [Hs1 Hnd]. simpl.
    assert (∀ sid m', (sid, m') ∈ l → sync_id m' = sid ∧ od_wf (data m')) as Hwf'.
    { intros ???. apply Hwf. by apply list_elem_of_further. }
    apply elem_of_cons in Hin as [Heq|Hin].
    + injection Heq as <- <-.
      destruct (Hwf s m) as [Hid Hm]; [apply list_elem_of_here|].
      rewrite bool_decide_true, Hacc by done. simpl.
      pose proof (mirror_instances_other (mirror_items self m) l s key Hwf' Hs1) as Ho.
      unfold mirror_instances in Ho. rewrite Ho.
      rewrite mirror_items_get by done.
      rewrite decide_True by done. by rewrite Hget.
    + destruct (bool_decide _ && accept_source m1).
      * apply IH; try done. by rewrite sync_id_mirror_items.
      * by apply IH.
Qed.

Lemma mirror_instances_backward (self : ModelProxy) instances s key item :
  (∀ sid m, (sid, m) ∈ instances → sync_id m = sid ∧ od_wf (data m)) →
  od_get (s, key) (data (mirror_instances self instances)) = Some item →
  od_get (s, key) (data self) = Some item ∨
  ∃ m, (s, m) ∈ instances ∧ s ≠ sync_id self ∧ accept_source m = true ∧
       od_get key (data m) = Some item.
Proof.
  unfold mirror_instances. revert self.
  induction instances as [|[s1 m1] l IH]; intros self Hwf Hget; simpl in *.
  - by left.
  - assert (∀ sid m', (sid, m') ∈ l → sync_id m' = sid ∧ od_wf (data m')) as Hwf'.
    { intros ???. apply Hwf. by apply list_elem_of_further. }
    destruct (Hwf s1 m1) as [Hid Hm1]; [apply list_elem_of_here|].
    apply IH in Hget; [|done].
    destruct Hget as [Hget|(m & Hin & Hne & Hacc & Hget)].
    + destruct (bool_decide (s1 ≠ sync_id self)) eqn:Hb; simpl in Hget;
        [|by left].
      apply bool_decide_eq_true in Hb.
      destruct (accept_source m1) eqn:Hacc; [|by left].
      rewrite mirror_items_get in Hget by done.
      destruct (decide (s = sync_id m1)) as [->|Hs]; [|by left].
      destruct (od_get key (data m1)) as [v|] eqn:Hk; [|by left].
      right. exists m1. rewrite Hid. split_and!; try done.
      * apply list_elem_of_here.
      * congruence.
    + right. exists m. split_and!; try done.
      * by apply list_elem_of_further.
      * destruct (bool_decide _ && accept_source m1); [|done].
        by rewrite sync_id_mirror_items in Hne.
Qed.

(** C4. When a proxy is constructed over a well-formed registry, every
    (key, item) pair of every registered collection other than the proxy
    itself that the proxy accepts is found in the proxy under the
    composite key (identity of the source, key), with the very item of the
    source; and the proxy holds nothing else, so a collection that is not
    accepted contributes nothing. The proxy is registered in
    [Model.proxies] under its identity. *)
Theorem ModelProxy_init_mirrors
    (sid : SyncId) (instances : odict SyncId (Model Key))
    (proxies : odict SyncId ModelProxy) :
  registry_wf instances →
  let self := (ModelProxy_init sid instances proxies).1 in
  sync_id self = sid ∧
  od_get sid (ModelProxy_init sid instances proxies).2 = Some self ∧
  (∀ s m key item,
      (s, m) ∈ instances → s ≠ sid → accept_source m = true →
      od_get key (data m) = Some item →
      od_get (s, key) (data self) = Some item) ∧
  (∀ s key item,
      od_get (s, key) (data self) = Some item →
      ∃ m, (s, m) ∈ instances ∧ s ≠ sid ∧ accept_source m = true ∧
           od_get key (data m) = Some item).
Proof.
  intros Hwf. simpl. split_and!.
  - by rewrite sync_id_mirror_instances.
  - apply od_get_set_eq.
  - intros s m key item Hin Hne Hacc Hget.
    by apply (mirror_instances_forward _ _ s m).
  - intros s key item Hget. destruct Hwf as [_ Hwf].
    apply mirror_instances_backward in Hget; [|done].
    by destruct Hget as [Hget|Hget].
Qed.
(** *** Events compose *)

Lemma source_cleared_eq (self : ModelProxy) (source : Model Key) :
  source_cleared self source =
    if accept_source source
    then mkModel (sync_id self)
           (filter (λ e, e.1.1 ≠ sync_id source) (data self))
    else self.
Proof.
  unfold source_cleared. destruct (accept_source source); [|done].
  rewrite source_cleared_loop. f_equal.
  apply filter_ext_elem. intros [[s k] v] Hin; simpl.
  split; [|tauto]. intros Hn Heq. apply Hn. split; [done|].
  apply list_elem_of_fmap. by exists (s, k, v).
Qed.

Lemma od_get_filter_source (sid : SyncId) (d : odict (SyncId * Key) ModelItem) s k :
  od_get (s, k) (filter (λ e, e.1.1 ≠ sid) d) =
    if decide (s = sid) then None else od_get (s, k) d.
Proof.
  induction d as [|[[s' k'] v'] d IH]; simpl.
  - by destruct (decide (s = sid)).
  - rewrite filter_cons. simpl. destruct (decide (s' ≠ sid)) as [Hs'|Hs']; simpl.
    + destruct (decide ((s, k) = (s', k'))) as [[= -> ->]|Hne]; [|done].
      by rewrite decide_False.
    + rewrite IH. destruct (decide (s = sid)) as [->|Hs]; [done|].
      rewrite decide_False; [done|]. intros [= -> ->]. apply Hs'. congruence.
Qed.

(** X1. An event from one source never touches what the proxy mirrors
    from another source: after a set, a deletion or a clear event from
    [source], every composite key whose first component is not the
    identity of [source] has the item it had. *)
Theorem source_events_isolated
    (self : ModelProxy) (source : Model Key) (key : Key) (value : ModelItem)
    (s : SyncId) (k : Key) :
  s ≠ sync_id source →
  od_get (s, k) (data (source_item_set self source key value)) = od_get (s, k) (data self) ∧
  od_get (s, k) (data (source_item_deleted self source key)) = od_get (s, k) (data self) ∧
  od_get (s, k) (data (source_cleared self source)) = od_get (s, k) (data self).
Proof.
  intros Hs. split_and!.
  - unfold source_item_set. destruct (accept_source source); [|done]. simpl.
    apply od_get_set_ne. congruence.
  - unfold source_item_deleted. destruct (accept_source source); [|done]. simpl.
    apply od_get_remove_ne. congruence.
  - rewrite source_cleared_eq. destruct (accept_source source); [|done]. simpl.
    rewrite od_get_filter_source. by rewrite decide_False.
Qed.

(** X2. A set event followed by the deletion event for the same key of
    the same accepted source leaves that key out of the proxy, and gives
    back the very proxy there was before when the key was not mirrored
    yet. *)
Theorem source_item_set_then_deleted
    (self : ModelProxy) (source : Model Key) (key : Key) (value : ModelItem) :
  accept_source source = true →
  let self' := source_item_deleted (source_item_set self source key value) source key in
  od_get (sync_id source, key) (data self') = None ∧
  (od_get (sync_id source, key) (data self) = None → self' = self).
Proof.
  intros Hacc. unfold source_item_deleted, source_item_set. rewrite Hacc. simpl.
  split.
  - apply od_get_remove_eq.
  - intros Habs. unfold Model_delitem. simpl. rewrite od_remove_set by done.
    by destruct self.
Qed.

(** X3. Clear events compose as deletions of sets of entries do: a
    second clear from the same source changes nothing, and the clears of
    two sources give the same proxy in either order. *)
Theorem source_cleared_compose (self : ModelProxy) (source1 source2 : Model Key) :
  source_cleared (source_cleared self source1) source1 = source_cleared self source1 ∧
  source_cleared (source_cleared self source1) source2 =
    source_cleared (source_cleared self source2) source1.
Proof.
  rewrite !source_cleared_eq.
  destruct (accept_source source1), (accept_source source2); simpl; split;
    try done; f_equal; rewrite !list_filter_filter;
    apply filter_ext_elem; intros e _; tauto.
Qed.

Lemma registry_wf_remove (instances : odict SyncId (Model Key)) sid :
  registry_wf instances → registry_wf (od_remove sid instances).
Proof.
  intros [Hnd Hwf]. split; [by apply od_wf_remove|].
  intros s m [_ Hin]%od_elem_remove. by apply Hwf.
Qed.

(** The items of a proxy built over a well-formed registry. *)
Lemma mirror_instances_lookup (self : ModelProxy) instances s key item :
  registry_wf instances → data self = [] →
  od_get (s, key) (data (mirror_instances self instances)) = Some item ↔
  ∃ m, (s, m) ∈ instances ∧ s ≠ sync_id self ∧ accept_source m = true ∧
       od_get key (data m) = Some item.
Proof.
  intros Hwf Hempty. split.
  - intros Hget. destruct Hwf as [_ Hwf].
    apply mirror_instances_backward in Hget; [|done].
    destruct Hget as [Hget|Hget]; [|done]. by rewrite Hempty in Hget.
  - intros (m & Hin & Hne & Hacc & Hget). by apply (mirror_instances_forward _ _ s m).
Qed.

(** X4. Clearing a registered source from a proxy built over a
    well-formed registry gives, key by key, the proxy that would have
    been built over the registry without that source. *)
Theorem source_cleared_after_init
    (sid : SyncId) (instances : odict SyncId (Model Key))
    (proxies : odict SyncId ModelProxy) (source : Model Key) (s : SyncId) (k : Key) :
  registry_wf instances →
  (sync_id source, source) ∈ instances →
  od_get (s, k)
    (data (source_cleared (ModelProxy_init sid instances proxies).1 source)) =
  od_get (s, k)
    (data (ModelProxy_init sid (od_remove (sync_id source) instances) proxies).1).
Proof.
  intros Hwf Hsrc. simpl. apply option_eq. intros item.
  rewrite (mirror_instances_lookup _ (od_remove _ _));
    [|by apply registry_wf_remove|done].
  rewrite source_cleared_eq. simpl.
  assert (od_get (s, k) (data (mirror_instances (Model_init sid) instances)) = Some item ↔
          ∃ m, (s, m) ∈ instances ∧ s ≠ sid ∧ accept_source m = true ∧
               od_get k (data m) = Some item) as Hall
    by (by apply mirror_instances_lookup).
  destruct (accept_source source) eqn:Hacc; simpl.
  - rewrite od_get_filter_source.
    destruct (decide (s = sync_id source)) as [Hs|Hs].
    + split; [done|]. intros (m & [Hne _]%od_elem_remove & _). done.
    + rewrite Hall. split.
      * intros (m & Hin & ?). exists m. split; [by apply od_elem_remove | done].
      * intros (m & [_ Hin]%od_elem_remove & ?). by exists m.
  - rewrite Hall. split.
    + intros (m & Hin & Hne & Hm & Hget). exists m. split; [|done].
      apply od_elem_remove. split; [|done]. intros ->.
      destruct Hwf as [Hnd _].
      pose proof (od_elem_get _ _ _ Hnd Hin) as H1.
      pose proof (od_elem_get _ _ _ Hnd Hsrc) as H2. congruence.
    + intros (m & [_ Hin]%od_elem_remove & ?). by exists m.
Qed.
(** *** The size of a new proxy *)

Lemma mirror_items_data (m : Model Key) :
  accept_source m = true →
  ∀ (l : odict Key ModelItem) (self : ModelProxy),
  NoDup (map fst l) →
  (∀ k, k ∈ map fst l → od_get (sync_id m, k) (data self) = None) →
  data (fold_left (λ self '(key, item), source_item_set self m key item) l self) =
    data self ++ map (λ e, ((sync_id m, e.1), e.2)) l.
Proof.
  intros Hacc. induction l as [|[k1 v1] l IH]; intros self Hnd Hfresh; simpl.
  - by rewrite app_nil_r.
  - apply NoDup_cons in Hnd as [Hk1 Hnd].
    assert (data (source_item_set self m k1 v1)
            = data self ++ [((sync_id m, k1), v1)]) as Hset.
    { unfold source_item_set. rewrite Hacc. simpl.
      apply od_set_absent, Hfresh, list_elem_of_here. }
    rewrite IH; [by rewrite Hset, <- app_assoc | done |].
    intros k Hk. rewrite Hset, od_get_snoc.
    rewrite Hfresh by (by apply list_elem_of_further).
    rewrite decide_False; [done|]. intros [= ->]. done.
Qed.

Definition mirrored_size (self_id : SyncId) (entry : SyncId * Model Key) : nat :=
  if bool_decide (entry.1 ≠ self_id) && accept_source entry.2
  then length (data entry.2)
  else 0.

Lemma mirror_instances_length (instances : odict SyncId (Model Key)) :
  ∀ self : ModelProxy,
  registry_wf instances →
  (∀ s k, s ∈ od_keys instances → od_get (s, k) (data self) = None) →
  length (data (mirror_instances self instances)) =
    length (data self) + sum_list_with (mirrored_size (sync_id self)) instances ∧
  ∀ s k, s ∉ od_keys instances →
    od_get (s, k) (data (mirror_instances self instances)) = od_get (s, k) (data self).
Proof.
  induction instances as [|[s1 m1] l IH]; intros self Hwf Hfresh.
  - simpl. split; [lia | done].
  - destruct Hwf as [Hnd Hwf]. unfold od_wf in Hnd. simpl in Hnd.
    apply NoDup_cons in Hnd as [Hs1 Hnd].
    destruct (Hwf s1 m1) as [Hid Hm1]; [apply list_elem_of_here|].
    assert (registry_wf l) as Hwfl.
    { split; [done|]. intros ???. apply Hwf. by apply list_elem_of_further. }
    unfold mirror_instances. cbn [fold_left]. fold (mirror_instances).
    unfold mirrored_size at 1. cbn [fst snd sum_list_with].
    destruct (bool_decide (s1 ≠ sync_id self) && accept_source m1) eqn:Hc.
    + apply andb_true_iff in Hc as [_ Hacc].
      assert (data (mirror_items self m1) =
              data self ++ map (λ e, ((sync_id m1, e.1), e.2)) (data m1)) as Hdata.
      { apply mirror_items_data; [done..|]. intros k _. apply Hfresh.
        rewrite Hid. apply list_elem_of_here. }
      assert (∀ s k, s ≠ s1 →
                od_get (s, k) (data (mirror_items self m1)) = od_get (s, k) (data self))
        as Hother.
      { intros s k Hs. rewrite mirror_items_get by done.
        rewrite decide_False; [done | congruence]. }
      destruct (IH (mirror_items self m1) Hwfl) as [Hlen Hkeep].
      { intros s k Hs. rewrite Hother; [|intros ->; done].
        apply Hfresh. by apply list_elem_of_further. }
      fold (mirror_instances (mirror_items self m1) l).
      rewrite sync_id_mirror_items in Hlen. split.
      * rewrite Hlen, Hdata, length_app, length_map. unfold mirrored_size. lia.
      * intros s k Hs. simpl in Hs. apply not_elem_of_cons in Hs as [Hs Hsl].
        rewrite Hkeep by done. by apply Hother.
    + destruct (IH self Hwfl) as [Hlen Hkeep].
      { intros s k Hs. apply Hfresh. by apply list_elem_of_further. }
      fold (mirror_instances self l). split; [rewrite Hlen; unfold mirrored_size; lia|].
      intros s k Hs. simpl in Hs. apply not_elem_of_cons in Hs as [_ Hsl].
      by apply Hkeep.
Qed.

(** X22. A proxy built over a well-formed registry has as many entries
    as the collections it accepts, itself left out, have items
    altogether: under the composite keys, equal keys of different sources
    do not overwrite one another. *)
Theorem ModelProxy_init_size
    (sid : SyncId) (instances : odict SyncId (Model Key))
    (proxies : odict SyncId ModelProxy) :
  registry_wf instances →
  length (data (ModelProxy_init sid instances proxies).1) =
    sum_list_with (mirrored_size sid) instances.
Proof.
  intros Hwf. simpl.
  destruct (mirror_instances_length instances (Model_init sid) Hwf) as [Hlen _];
    [done|]. exact Hlen.
Qed.
End models.

(** *** A concrete registry *)

Definition rooms_of_alice : SyncId := [SType T_Room; SStr "@alice:example.org"].
Definition rooms_of_bob : SyncId := [SType T_Room; SStr "@bob:example.org"].
Definition all_rooms : SyncId := [SStr "all_rooms"].

(** Items are object references here. *)
Definition ex_alice_rooms : Model (ModelItem := nat) Key :=
  mkModel rooms_of_alice [(KStr "!a:example.org", 1); (KStr "!b:example.org", 2)].
Definition ex_bob_rooms : Model (ModelItem := nat) Key :=
  mkModel rooms_of_bob [(KStr "!a:example.org", 3)].

Definition ex_instances : odict SyncId (Model (ModelItem := nat) Key) :=
  [(rooms_of_alice, ex_alice_rooms); (rooms_of_bob, ex_bob_rooms);
   (all_rooms, Model_init all_rooms)].

(** A proxy that accepts only the rooms of alice. *)
Definition accept_alice (source : Model (ModelItem := nat) Key) : bool :=
  bool_decide (sync_id source = rooms_of_alice).

Definition ex_proxy : ModelProxy (ModelItem := nat) :=
  (ModelProxy_init accept_source_default all_rooms ex_instances []).1.

Example ex_proxy_data :
  data ex_proxy =
    [((rooms_of_alice, KStr "!a:example.org"), 1);
     ((rooms_of_alice, KStr "!b:example.org"), 2);
     ((rooms_of_bob, KStr "!a:example.org"), 3)].
Proof. reflexivity. Qed.

Example ex_proxy_filtered :
  data (ModelProxy_init accept_alice all_rooms ex_instances []).1 =
    [((rooms_of_alice, KStr "!a:example.org"), 1);
     ((rooms_of_alice, KStr "!b:example.org"), 2)].
Proof. reflexivity. Qed.

(** A proxy over a proxy: the keys of the source are pairs already. *)
Example ex_chained :
  data (mirror_items accept_source_default (Model_init [SStr "chained"])
          (as_source ex_proxy)) =
    [((all_rooms, KPair rooms_of_alice (KStr "!a:example.org")), 1);
     ((all_rooms, KPair rooms_of_alice (KStr "!b:example.org")), 2);
     ((all_rooms, KPair rooms_of_bob (KStr "!a:example.org")), 3)].
Proof. reflexivity. Qed.

Example ex_source_cleared :
  data (source_cleared accept_source_default ex_proxy ex_alice_rooms) =
    [((rooms_of_bob, KStr "!a:example.org"), 3)].
Proof. reflexivity. Qed.

Lemma ex_instances_wf : registry_wf ex_instances.
Proof.
  split.
  - unfold od_wf. simpl. apply (bool_decide_unpack _). reflexivity.
  - intros sid m Hin. unfold ex_instances in Hin.
    repeat (apply elem_of_cons in Hin as [[= -> ->]|Hin]);
      [| | |by apply elem_of_nil in Hin];
      (split; [reflexivity | apply (bool_decide_unpack _); reflexivity]).
Defined.

Lemma source_item_deleted_absent_witness :
  accept_source_default ex_bob_rooms = true ∧
  od_get (sync_id ex_bob_rooms, KStr "!z:example.org") (data ex_proxy) = None ∧
  source_item_deleted accept_source_default ex_proxy ex_bob_rooms
    (KStr "!z:example.org") = ex_proxy.
Proof.
  split_and!; [reflexivity | reflexivity |].
  apply (source_item_deleted_absent accept_source_default ex_proxy ex_bob_rooms
           (KStr "!z:example.org")); reflexivity.
Defined.

Lemma ModelProxy_init_mirrors_witness :
  registry_wf ex_instances ∧
  od_get (rooms_of_bob, KStr "!a:example.org") (data ex_proxy) = Some 3.
Proof.
  split; [exact ex_instances_wf|].
  destruct (ModelProxy_init_mirrors accept_source_default all_rooms ex_instances []
              ex_instances_wf) as (_ & _ & Hfwd & _).
  apply (Hfwd rooms_of_bob ex_bob_rooms (KStr "!a:example.org") 3).
  - unfold ex_instances. apply list_elem_of_further, list_elem_of_here.
  - discriminate.
  - reflexivity.
  - reflexivity.
Defined.

Lemma source_events_isolated_witness :
  rooms_of_bob ≠ sync_id ex_alice_rooms ∧
  od_get (rooms_of_bob, KStr "!a:example.org")
    (data (source_cleared accept_source_default ex_proxy ex_alice_rooms)) = Some 3.
Proof.
  assert (rooms_of_bob ≠ sync_id ex_alice_rooms) as Hne by discriminate.
  split; [exact Hne|].
  destruct (source_events_isolated accept_source_default ex_proxy ex_alice_rooms
              (KStr "!n:example.org") 9 rooms_of_bob (KStr "!a:example.org") Hne)
    as (_ & _ & ->).
  reflexivity.
Defined.

Lemma source_item_set_then_deleted_witness :
  accept_source_default ex_bob_rooms = true ∧
  od_get (sync_id ex_bob_rooms, KStr "!n:example.org") (data ex_proxy) = None ∧
  source_item_deleted accept_source_default
    (source_item_set accept_source_default ex_proxy ex_bob_rooms
       (KStr "!n:example.org") 9)
    ex_bob_rooms (KStr "!n:example.org") = ex_proxy.
Proof.
  split_and!; [reflexivity | reflexivity |].
  apply (source_item_set_then_deleted accept_source_default ex_proxy ex_bob_rooms
           (KStr "!n:example.org") 9 eq_refl).
  reflexivity.
Defined.

Lemma source_cleared_after_init_witness :
  registry_wf ex_instances ∧
  (sync_id ex_bob_rooms, ex_bob_rooms) ∈ ex_instances ∧
  od_get (rooms_of_bob, KStr "!a:example.org")
    (data (source_cleared accept_source_default ex_proxy ex_bob_rooms)) = None.
Proof.
  assert ((sync_id ex_bob_rooms, ex_bob_rooms) ∈ ex_instances) as Hin.
  { unfold ex_instances. apply list_elem_of_further, list_elem_of_here. }
  split_and!; [exact ex_instances_wf | exact Hin |].
  unfold ex_proxy.
  rewrite (source_cleared_after_init accept_source_default all_rooms ex_instances []
             ex_bob_rooms rooms_of_bob (KStr "!a:example.org") ex_instances_wf Hin).
  reflexivity.
Defined.

Lemma ModelProxy_init_size_witness :
  registry_wf ex_instances ∧ length (data ex_proxy) = 3.
Proof.
  split; [exact ex_instances_wf|].
  unfold ex_proxy.
  rewrite (ModelProxy_init_size accept_source_default all_rooms ex_instances []
             ex_instances_wf).
  reflexivity.
Defined.

End Models.

(** [map] of the Standard Library and the [fmap] of stdpp on lists. *)
Lemma elem_of_map {A B} (f : A → B) (l : list A) (y : B) :
  y ∈ map f l ↔ ∃ x, y = f x ∧ x ∈ l.
Proof. apply (list_elem_of_fmap f l y). Qed.

(** ** [sorted] *)

(** The builtin [sorted]: stable, and comparing items with [<] only. *)
Section sorted.
Context {A : Type} (lt : A → A → bool).

Fixpoint insert_sorted (x : A) (l : list A) : list A :=
  match l with
  | [] => [x]
  | y :: l' => if lt y x then y :: insert_sorted x l' else x :: l
  end.

Definition sorted (l : list A) : list A := foldr insert_sorted [] l.

Lemma insert_sorted_Permutation x l : insert_sorted x l ≡ₚ x :: l.
Proof.
  induction l as [|y l IH]; simpl; [done|].
  destruct (lt y x); [|done]. rewrite IH. apply Permutation_swap.
Qed.

Lemma sorted_Permutation l : sorted l ≡ₚ l.
Proof.
  induction l as [|x l IH]; simpl; [done|].
  by rewrite insert_sorted_Permutation, IH.
Qed.

(** [x] is not after [y]: [y < x] is false. *)
Definition not_after (x y : A) : Prop := lt y x = false.

Hypothesis lt_asym : ∀ x y, lt x y = true → lt y x = false.
Hypothesis not_after_trans : ∀ x y z, not_after x y → not_after y z → not_after x z.

Lemma insert_sorted_StronglySorted x l :
  StronglySorted not_after l → StronglySorted not_after (insert_sorted x l).
Proof.
  induction l as [|y l IH]; simpl; intros Hl.
  - by repeat constructor.
  - apply StronglySorted_inv in Hl as [Hl Hy].
    destruct (lt y x) eqn:Hyx.
    + constructor; [by apply IH|].
      rewrite insert_sorted_Permutation. constructor; [|done].
      by apply lt_asym.
    + constructor; [by constructor|].
      constructor; [done|].
      eapply Forall_impl; [exact Hy|]. intros z Hz.
      by apply (not_after_trans x y z).
Qed.

Lemma sorted_StronglySorted l : StronglySorted not_after (sorted l).
Proof.
  induction l as [|x l IH]; simpl; [constructor|].
  by apply insert_sorted_StronglySorted.
Qed.
End sorted.

Lemma StronglySorted_weaken {A} (R R' : A → A → Prop) (l : list A) :
  (∀ x y, R x y → R' x y) → StronglySorted R l → StronglySorted R' l.
Proof.
  intros HR. induction 1 as [|x l Hl IH Hx]; constructor; [done|].
  eapply Forall_impl; [exact Hx | apply HR].
Qed.

(** The order of [str] is the lexicographic order of [String.compare]. *)
Lemma ascii_compare_Lt_trans a b c :
  Ascii.compare a b = Lt → Ascii.compare b c = Lt → Ascii.compare a c = Lt.
Proof.
  unfold Ascii.compare. rewrite !N.compare_lt_iff. apply N.lt_trans.
Qed.

Lemma string_compare_Lt_trans s1 s2 s3 :
  String.compare s1 s2 = Lt → String.compare s2 s3 = Lt → String.compare s1 s3 = Lt.
Proof.
  revert s2 s3. induction s1 as [|a s1 IH]; intros [|b s2] [|c s3]; simpl; try done.
  destruct (Ascii.compare a b) eqn:Hab; try done.
  - apply Ascii.compare_eq_iff in Hab as ->.
    destruct (Ascii.compare b c); try done. apply IH.
  - destruct (Ascii.compare b c) eqn:Hbc; try done.
    + apply Ascii.compare_eq_iff in Hbc as ->. by rewrite Hab.
    + by rewrite (ascii_compare_Lt_trans a b c).
Qed.

Lemma string_ltb_asym s1 s2 : String.ltb s1 s2 = true → String.ltb s2 s1 = false.
Proof.
  unfold String.ltb. rewrite (String.compare_antisym s2 s1).
  by destruct (String.compare s1 s2).
Qed.

Lemma string_ltb_false_leb s1 s2 : String.ltb s2 s1 = false ↔ String.leb s1 s2 = true.
Proof.
  unfold String.ltb, String.leb. rewrite (String.compare_antisym s2 s1).
  by destruct (String.compare s1 s2).
Qed.

Lemma string_leb_trans s1 s2 s3 :
  String.leb s1 s2 = true → String.leb s2 s3 = true → String.leb s1 s3 = true.
Proof.
  unfold String.leb.
  destruct (String.compare s1 s2) eqn:H12; try done; intros _.
  - apply String.compare_eq_iff in H12 as ->. done.
  - destruct (String.compare s2 s3) eqn:H23; try done; intros _.
    + apply String.compare_eq_iff in H23 as <-. by rewrite H12.
    + by rewrite (string_compare_Lt_trans s1 s2 s3).
Qed.

(** ** The backend ([backend.py]) *)

Module Backend.

(** Exceptions: [MatrixError] (of [errors.py]) and everything else. *)
Inductive Exn := MatrixError (reason : string) | OtherError (what : string).

Inductive Result (A : Type) := Return (a : A) | Raise (e : Exn).
Arguments Return {A}.
Arguments Raise {A}.

(** A [MatrixClient] as the backend sees it: what it was constructed with,
    the user id it holds once logged in or resumed, and its [syncing]
    flag. *)
Record MatrixClient := mkClient {
  mc_user       : string;
  mc_homeserver : string;
  mc_device_id  : option string;
  mc_user_id    : string;
  syncing       : bool;
}.

(** [MatrixClient(backend, user=..., homeserver=..., device_id=...)] *)
Definition MatrixClient_new (user homeserver : string) (device_id : option string)
    : MatrixClient :=
  mkClient user homeserver device_id user false.

(** The items of the [Account] and [Room] models. [fields] stands for the
    rest of the dataclass, which the backend does not read. *)
Record Account := mkAccount { user_id : string; account_fields : list (string * string) }.
Record Room := mkRoom { room_id : string; room_fields : list (string * string) }.

(** [Account(user_id)] *)
Definition Account_new (uid : string) : Account := mkAccount uid [].

(** An entry of the saved accounts file. *)
Record SavedAccount := mkSaved {
  sa_token : string; sa_device_id : string; sa_homeserver : string;
}.

(** What the backend does to the outside, in order. *)
Inductive Event :=
| EvClose (c : MatrixClient)
| EvLogout (c : MatrixClient)
| EvWarning (format : string) (args : list string) (seconds : nat)
| EvSleep (seconds : Q).

(** The state of a [Backend]: [self.clients], [self.models[Account]], the
    saved accounts of the user configuration, and the trace of events. *)
Record Backend := mkBackend {
  clients        : odict string MatrixClient;
  models_Account : odict string Account;
  saved_accounts : odict string SavedAccount;
  trace          : list Event;
}.

(** [Backend.__init__] *)
Definition Backend_init (saved : odict string SavedAccount) : Backend :=
  mkBackend [] [] saved [].

(** *** Computations over the backend that may raise *)

Definition M (A : Type) : Type := Backend → Result A * Backend.

#[global] Instance M_ret : MRet M := λ A a b, (Return a, b).
#[global] Instance M_bind : MBind M := λ A B f m b,
  match m b with
  | (Return a, b') => f a b'
  | (Raise e, b') => (Raise e, b')
  end.

Definition raise {A} (e : Exn) : M A := λ b, (Raise e, b).

(** [try: body except MatrixError: handler] *)
Definition try_except_MatrixError {A} (body : M A) (handler : Exn → M A) : M A :=
  λ b, match body b with
       | (Raise (MatrixError r), b') => handler (MatrixError r) b'
       | other => other
       end.

Definition emit (ev : Event) : M unit :=
  λ b, (Return tt, mkBackend (clients b) (models_Account b) (saved_accounts b)
                     (trace b ++ [ev])).

(** [self.clients[uid] = client] *)
Definition clients_set (uid : string) (client : MatrixClient) : M unit :=
  λ b, (Return tt, mkBackend (od_set uid client (clients b)) (models_Account b)
                     (saved_accounts b) (trace b)).

(** [self.models[Account][uid] = account] *)
Definition accounts_set (uid : string) (account : Account) : M unit :=
  λ b, (Return tt, mkBackend (clients b) (od_set uid account (models_Account b))
                     (saved_accounts b) (trace b)).

(** [self.clients.pop(uid, None)] *)
Definition clients_pop (uid : string) : M (option MatrixClient) :=
  λ b, (Return (od_pop uid (clients b)).1,
        mkBackend (od_pop uid (clients b)).2 (models_Account b)
          (saved_accounts b) (trace b)).

(** [self.models[Account].pop(uid, None)] *)
Definition accounts_pop (uid : string) : M (option Account) :=
  λ b, (Return (od_pop uid (models_Account b)).1,
        mkBackend (clients b) (od_pop uid (models_Account b)).2
          (saved_accounts b) (trace b)).

(** [await self.saved_accounts.delete(uid)] *)
Definition saved_accounts_delete (uid : string) : M unit :=
  λ b, (Return tt, mkBackend (clients b) (models_Account b)
                     (od_remove uid (saved_accounts b)) (trace b)).

Section clients_management.
(** The behaviour of the sessions ([matrix_client.py] is not among the
    available sources): the outcome of a login is the user id the server
    assigns or an exception, a resume or a logout succeeds ([None]) or
    raises. None of them touches [self.clients] or the [Account] model. *)
Variable net_login : MatrixClient → string → Result string.
Variable net_resume : MatrixClient → string → string → string → option Exn.
Variable net_logout : MatrixClient → option Exn.

(** [await client.login(password)]: the client with its user id. *)
Definition MatrixClient_login (client : MatrixClient) (password : string)
    : M MatrixClient :=
  match net_login client password with
  | Return uid =>
      mret (mkClient (mc_user client) (mc_homeserver client) (mc_device_id client)
              uid (syncing client))
  | Raise e => raise e
  end.

(** [await client.close()] *)
Definition MatrixClient_close (client : MatrixClient) : M unit :=
  emit (EvClose client).

(** [await client.resume(user_id=..., token=..., device_id=...)] *)
Definition MatrixClient_resume (client : MatrixClient) (uid token device_id : string)
    : M unit :=
  match net_resume client uid token device_id with
  | None => mret tt
  | Some e => raise e
  end.

(** [await client.logout()] *)
Definition MatrixClient_logout (client : MatrixClient) : M unit :=
  emit (EvLogout client);;
  match net_logout client with
  | None => mret tt
  | Some e => raise e
  end.

Definition login_client
    (user password : string) (device_id : option string) (homeserver : string)
    : M string :=
  let client := MatrixClient_new user homeserver device_id in
  client ← try_except_MatrixError
             (MatrixClient_login client password)
             (λ e, MatrixClient_close client;; raise e);
  clients_set (mc_user_id client) client;;
  accounts_set (mc_user_id client) (Account_new (mc_user_id client));;
  mret (mc_user_id client).

Definition resume_client (uid token device_id homeserver : string) : M unit :=
  let client := MatrixClient_new uid homeserver (Some device_id) in
  clients_set uid client;;
  accounts_set uid (Account_new uid);;
  MatrixClient_resume client uid token device_id.

(** In [if client:] a client object is true and [None] is false. *)
Definition logout_client (uid : string) : M unit :=
  client ← clients_pop uid;
  match client with
  | Some client => accounts_pop uid;; MatrixClient_logout client
  | None => mret tt
  end;;
  saved_accounts_delete uid.

(** *** Login *)

(** C10. When the login step fails with a [MatrixError], [login_client]
    closes the client it created, raises that same error, and leaves
    [self.clients] and the [Account] model as they were; when the login
    succeeds, it registers the client under the user id of the client in
    both and returns that user id. *)
Theorem login_client_outcome
    (b : Backend) (user password : string) (device_id : option string)
    (homeserver : string) :
  let client := MatrixClient_new user homeserver device_id in
  (∀ r, net_login client password = Raise (MatrixError r) →
     login_client user password device_id homeserver b =
       (Raise (MatrixError r),
        mkBackend (clients b) (models_Account b) (saved_accounts b)
          (trace b ++ [EvClose client]))) ∧
  (∀ uid, net_login client password = Return uid →
     login_client user password device_id homeserver b =
       (Return uid,
        mkBackend
          (od_set uid (mkClient user homeserver device_id uid false) (clients b))
          (od_set uid (Account_new uid) (models_Account b))
          (saved_accounts b) (trace b))).
Proof.
  intros client. split.
  - intros r Hr. unfold login_client, try_except_MatrixError, MatrixClient_login.
    fold client. unfold mbind, M_bind. rewrite Hr. reflexivity.
  - intros uid Hr. unfold login_client, try_except_MatrixError, MatrixClient_login.
    fold client. unfold mbind, M_bind. rewrite Hr. reflexivity.
Qed.

(** *** The clients and the accounts stay in lockstep *)

Inductive Op :=
| Login (user password : string) (device_id : option string) (homeserver : string)
| Resume (uid token device_id homeserver : string)
| Logout (uid : string).

Definition run_op (op : Op) : M unit :=
  match op with
  | Login user password device_id homeserver =>
      login_client user password device_id homeserver;; mret tt
  | Resume uid token device_id homeserver =>
      resume_client uid token device_id homeserver
  | Logout uid => logout_client uid
  end.

(** The backend once the operation is over, whether it returned or
    raised. *)
Definition after (b : Backend) (op : Op) : Backend := (run_op op b).2.

(** The successive states of the backend along a sequence of operations. *)
Fixpoint states (b : Backend) (ops : list Op) : list Backend :=
  match ops with
  | [] => []
  | op :: ops => after b op :: states (after b op) ops
  end.

Definition lockstep (b : Backend) : Prop :=
  ∀ uid, od_mem uid (clients b) = od_mem uid (models_Account b).

Lemma od_mem_set {V} (k k' : string) (v : V) d :
  od_mem k' (od_set k v d) = if decide (k = k') then true else od_mem k' d.
Proof.
  unfold od_mem. destruct (decide (k = k')) as [->|Hne].
  - by rewrite od_get_set_eq.
  - by rewrite od_get_set_ne.
Qed.

Lemma od_mem_remove {V} (k k' : string) (d : odict string V) :
  od_mem k' (od_remove k d) = if decide (k = k') then false else od_mem k' d.
Proof.
  unfold od_mem. destruct (decide (k = k')) as [->|Hne].
  - by rewrite od_get_remove_eq.
  - by rewrite od_get_remove_ne.
Qed.

Lemma lockstep_login b user password device_id homeserver :
  lockstep b → lockstep (after b (Login user password device_id homeserver)).
Proof.
  intros Hb uid. unfold after, run_op, login_client, try_except_MatrixError,
    MatrixClient_login, MatrixClient_close, mbind, M_bind.
  destruct (net_login _ _) as [u|[r|w]]; simpl; try apply Hb.
  rewrite !od_mem_set. destruct (decide (u = uid)); [done | apply Hb].
Qed.

Lemma lockstep_resume b u token device_id homeserver :
  lockstep b → lockstep (after b (Resume u token device_id homeserver)).
Proof.
  intros Hb uid. unfold after, run_op, resume_client, MatrixClient_resume,
    mbind, M_bind. simpl.
  destruct (net_resume _ _ _ _); simpl;
    rewrite !od_mem_set; (destruct (decide (u = uid)); [done | apply Hb]).
Qed.

Lemma lockstep_logout b u :
  lockstep b → lockstep (after b (Logout u)).
Proof.
  intros Hb uid. unfold after, run_op, logout_client, MatrixClient_logout,
    mbind, M_bind. simpl.
  destruct (od_get u (clients b)) as [c|] eqn:Hc; simpl.
  - destruct (net_logout c); simpl; rewrite !od_mem_remove;
      (destruct (decide (u = uid)); [done | apply Hb]).
  - rewrite od_mem_remove. destruct (decide (u = uid)) as [->|]; [|apply Hb].
    rewrite <- Hb. unfold od_mem. by rewrite Hc.
Qed.

Lemma lockstep_after b op : lockstep b → lockstep (after b op).
Proof.
  destruct op; [apply lockstep_login | apply lockstep_resume | apply lockstep_logout].
Qed.

Lemma lockstep_states b ops : lockstep b → Forall lockstep (states b ops).
Proof.
  revert b. induction ops as [|op ops IH]; intros b Hb; simpl.
  - constructor.
  - constructor; [|apply IH]; by apply lockstep_after.
Qed.

(** C6. Along every sequence of [login_client], [resume_client] and
    [logout_client] operations from an empty backend, after each
    operation a user id has an entry in [self.clients] exactly when it has
    one in the [Account] model. *)
Theorem clients_accounts_lockstep (saved : odict string SavedAccount) (ops : list Op) :
  Forall lockstep (states (Backend_init saved) ops).
Proof. apply lockstep_states. intros uid. reflexivity. Qed.

(** *** Logout and failed logins *)

(** X5. [logout_client] for a user id that has no client leaves
    [self.clients] and the [Account] model as they are and calls no
    [client.logout]; it only deletes the saved account. *)
Theorem logout_client_unregistered (b : Backend) (uid : string) :
  od_get uid (clients b) = None →
  logout_client uid b =
    (Return tt,
     mkBackend (clients b) (models_Account b)
       (od_remove uid (saved_accounts b)) (trace b)).
Proof.
  intros Hc. unfold logout_client, clients_pop, saved_accounts_delete, od_pop,
    mbind, M_bind. simpl. rewrite Hc. simpl.
  by rewrite od_remove_absent.
Qed.

(** X6. [logout_client] for a registered user removes the client and
    the account before it awaits [client.logout]. When that call returns,
    the saved account is deleted too; when it raises, the exception
    reaches the caller and the saved account stays in the file, the
    client and the account being gone all the same. *)
Theorem logout_client_registered (b : Backend) (uid : string) (client : MatrixClient) :
  od_get uid (clients b) = Some client →
  logout_client uid b =
    match net_logout client with
    | None =>
        (Return tt,
         mkBackend (od_remove uid (clients b)) (od_remove uid (models_Account b))
           (od_remove uid (saved_accounts b)) (trace b ++ [EvLogout client]))
    | Some e =>
        (Raise e,
         mkBackend (od_remove uid (clients b)) (od_remove uid (models_Account b))
           (saved_accounts b) (trace b ++ [EvLogout client]))
    end.
Proof.
  intros Hc. unfold logout_client, clients_pop, accounts_pop, saved_accounts_delete,
    MatrixClient_logout, emit, od_pop, mbind, M_bind. simpl. rewrite Hc. simpl.
  by destruct (net_logout client).
Qed.

(** X7. A login followed by the logout of the user id it returned, for
    a user that was not registered before, gives back [self.clients] and
    the [Account] model exactly as they were before the login. *)
Theorem login_then_logout
    (b : Backend) (user password : string) (device_id : option string)
    (homeserver uid : string) :
  net_login (MatrixClient_new user homeserver device_id) password = Return uid →
  net_logout (mkClient user homeserver device_id uid false) = None →
  od_get uid (clients b) = None →
  od_get uid (models_Account b) = None →
  let logged_in := login_client user password device_id homeserver b in
  let logged_out := logout_client uid logged_in.2 in
  logged_in.1 = Return uid ∧
  logged_out.1 = Return tt ∧
  clients logged_out.2 = clients b ∧
  models_Account logged_out.2 = models_Account b.
Proof.
  intros Hlogin Hlogout Hc Ha.
  unfold login_client, try_except_MatrixError, MatrixClient_login,
    logout_client, clients_pop, accounts_pop, saved_accounts_delete,
    MatrixClient_logout, emit, od_pop, mbind, M_bind.
  rewrite Hlogin. simpl. rewrite od_get_set_eq. simpl. rewrite Hlogout. simpl.
  by rewrite !od_remove_set.
Qed.

(** X8. Whatever exception the login step raises, [login_client] raises
    it and registers nothing; the client is closed only when the
    exception is a [MatrixError], any other exception leaves it open. *)
Theorem login_client_failure
    (b : Backend) (user password : string) (device_id : option string)
    (homeserver : string) (e : Exn) :
  let client := MatrixClient_new user homeserver device_id in
  net_login client password = Raise e →
  login_client user password device_id homeserver b =
    (Raise e,
     mkBackend (clients b) (models_Account b) (saved_accounts b)
       (trace b ++ match e with
                   | MatrixError _ => [EvClose client]
                   | OtherError _ => []
                   end)).
Proof.
  intros client He. unfold login_client, try_except_MatrixError, MatrixClient_login.
  fold client. unfold mbind, M_bind. rewrite He.
  destruct e; simpl; [done|]. rewrite app_nil_r. by destruct b.
Qed.

End clients_management.

(** *** Waiting for a client *)

(** [get_client] and [get_any_client] poll [self.clients] and sleep in
    between; other tasks run during the sleeps. [clients_at k] is
    [self.clients] as the loop finds it at its [k]-th iteration. The loop
    has no exit but [return], so a run has no outcome other than the
    client returned: [None] is a loop that is still polling when the fuel
    is spent. *)

Definition poll_interval : Q := 1 # 10.

(** [if failures and failures % period == 0: log.warning(format, args..., failures / 10, ...)];
    the stack trace that ends the message is left out. *)
Definition poll_warning (format : string) (args : list string) (period failures : nat)
    : list Event :=
  if negb (failures =? 0) && (failures mod period =? 0)
  then [EvWarning format args (failures / 10)]
  else [].

Definition get_client_warning : string := "Client %r not found after %ds".
Definition get_any_client_warning : string := "No healthy client found after %ds".

Fixpoint get_client_loop
    (fuel : nat) (clients_at : nat → odict string MatrixClient)
    (uid : string) (failures : nat) : option (MatrixClient * list Event) :=
  match fuel with
  | 0 => None
  | S fuel =>
      match od_get uid (clients_at failures) with
      | Some client => Some (client, [])
      | None =>
          '(client, evs) ← get_client_loop fuel clients_at uid (S failures);
          Some (client,
                poll_warning get_client_warning [uid] 100 failures
                  ++ EvSleep poll_interval :: evs)
      end
  end.

Definition get_client
    (fuel : nat) (clients_at : nat → odict string MatrixClient) (uid : string)
    : option (MatrixClient * list Event) :=
  get_client_loop fuel clients_at uid 0.

(** [for client in self.clients.values(): if client.syncing: return client] *)
Fixpoint first_syncing (cs : list MatrixClient) : option MatrixClient :=
  match cs with
  | [] => None
  | client :: cs => if syncing client then Some client else first_syncing cs
  end.

Fixpoint get_any_client_loop
    (fuel : nat) (clients_at : nat → odict string MatrixClient)
    (failures : nat) : option (MatrixClient * list Event) :=
  match fuel with
  | 0 => None
  | S fuel =>
      match first_syncing (od_values (clients_at failures)) with
      | Some client => Some (client, [])
      | None =>
          '(client, evs) ← get_any_client_loop fuel clients_at (S failures);
          Some (client,
                poll_warning get_any_client_warning [] 300 failures
                  ++ EvSleep poll_interval :: evs)
      end
  end.

Definition get_any_client
    (fuel : nat) (clients_at : nat → odict string MatrixClient)
    : option (MatrixClient * list Event) :=
  get_any_client_loop fuel clients_at 0.

(** The sleeps of a trace, with their lengths. *)
Definition sleeps (evs : list Event) : list Q :=
  omap (λ ev, match ev with EvSleep q => Some q | _ => None end) evs.

(** The events of [n] failed polls, from the count [failures] on. *)
Fixpoint waiting_events (format : string) (args : list string)
    (period failures n : nat) : list Event :=
  match n with
  | 0 => []
  | S n => poll_warning format args period failures
             ++ EvSleep poll_interval
             :: waiting_events format args period (S failures) n
  end.

Lemma sleeps_poll_warning format args period failures evs :
  sleeps (poll_warning format args period failures ++ evs) = sleeps evs.
Proof. unfold poll_warning. by destruct (_ && _). Qed.

Lemma sleeps_waiting_events format args period failures n :
  sleeps (waiting_events format args period failures n) = replicate n poll_interval.
Proof.
  revert failures. induction n as [|n IH]; intros failures; simpl; [done|].
  rewrite sleeps_poll_warning. unfold sleeps at 1. simpl. fold sleeps.
  by rewrite IH.
Qed.

Lemma get_client_loop_spec clients_at uid n client :
  ∀ fuel failures,
  (∀ k, k < n → od_get uid (clients_at (failures + k)) = None) →
  od_get uid (clients_at (failures + n)) = Some client →
  get_client_loop fuel clients_at uid failures =
    if decide (n < fuel)
    then Some (client, waiting_events get_client_warning [uid] 100 failures n)
    else None.
Proof.
  induction n as [|n IH]; intros fuel failures Hbefore Hat.
  - rewrite Nat.add_0_r in Hat.
    destruct fuel as [|fuel]; [by rewrite decide_False by lia|].
    cbn [get_client_loop]. rewrite Hat. by rewrite decide_True by lia.
  - destruct fuel as [|fuel]; [by rewrite decide_False by lia|].
    cbn [get_client_loop].
    specialize (Hbefore 0 ltac:(lia)) as H0. rewrite Nat.add_0_r in H0.
    rewrite H0. rewrite (IH fuel (S failures)).
    + destruct (decide (n < fuel)).
      * by rewrite decide_True by lia.
      * by rewrite decide_False by lia.
    + intros k Hk. replace (S failures + k) with (failures + S k) by lia.
      apply Hbefore. lia.
    + by replace (S failures + n) with (failures + S n) by lia.
Qed.

(** While the session is not registered the loop polls on: no fuel makes
    it give up with some other outcome. *)
Lemma get_client_keeps_polling clients_at uid :
  (∀ k, od_get uid (clients_at k) = None) →
  ∀ fuel, get_client fuel clients_at uid = None.
Proof.
  intros Hnone fuel. unfold get_client. generalize 0 as failures.
  induction fuel as [|fuel IH]; intros failures; simpl; [done|].
  by rewrite Hnone, IH.
Qed.

(** C7. If the session of [uid] is registered at the [n]-th poll and at
    none before, [get_client] returns exactly that session, after [n]
    sleeps of 0.1 second each; registered at the call ([n = 0]), it is
    returned before any sleep and without any diagnostic; and as long as
    the session is not registered the loop keeps polling, it has no other
    outcome. *)
Theorem get_client_resolves
    (clients_at : nat → odict string MatrixClient) (uid : string)
    (n : nat) (client : MatrixClient) :
  (∀ k, k < n → od_get uid (clients_at k) = None) →
  od_get uid (clients_at n) = Some client →
  (∀ fuel, fuel ≤ n → get_client fuel clients_at uid = None) ∧
  ∃ evs,
    (∀ fuel, n < fuel → get_client fuel clients_at uid = Some (client, evs)) ∧
    sleeps evs = replicate n (1 # 10)%Q ∧
    (n = 0 → evs = []).
Proof.
  intros Hbefore Hat. unfold get_client. split.
  - intros fuel Hfuel.
    rewrite (get_client_loop_spec clients_at uid n client) by done.
    by rewrite decide_False by lia.
  - eexists. split_and!.
    + intros fuel Hfuel.
      rewrite (get_client_loop_spec clients_at uid n client) by done.
      by rewrite decide_True by lia.
    + apply sleeps_waiting_events.
    + by intros ->.
Qed.

Lemma first_syncing_Some cs client :
  first_syncing cs = Some client ↔
  ∃ pre post, cs = pre ++ client :: post ∧
              Forall (λ c, syncing c = false) pre ∧ syncing client = true.
Proof.
  induction cs as [|c cs IH]; simpl.
  - split; [done|]. intros (pre & post & Heq & _). by destruct pre.
  - destruct (syncing c) eqn:Hc.
    + split.
      * intros [= <-]. by exists [], cs.
      * intros (pre & post & Heq & Hpre & Hs). destruct pre as [|c' pre].
        -- by injection Heq as ->.
        -- injection Heq as <- _. apply Forall_cons in Hpre as [Hc' _]. congruence.
    + rewrite IH. split.
      * intros (pre & post & -> & Hpre & Hs). exists (c :: pre), post.
        split_and!; [done | by constructor | done].
      * intros (pre & post & Heq & Hpre & Hs). destruct pre as [|c' pre].
        -- injection Heq as -> _. congruence.
        -- injection Heq as <- ->. apply Forall_cons in Hpre as [_ Hpre]. eauto.
Qed.

Lemma first_syncing_None cs :
  first_syncing cs = None ↔ Forall (λ c, syncing c = false) cs.
Proof.
  induction cs as [|c cs IH]; simpl; [by split|].
  rewrite Forall_cons. destruct (syncing c); [split; [done | by intros [? _]]|].
  rewrite IH. tauto.
Qed.

Lemma get_any_client_loop_syncing fuel clients_at failures client evs :
  get_any_client_loop fuel clients_at failures = Some (client, evs) →
  syncing client = true.
Proof.
  revert failures evs. induction fuel as [|fuel IH]; intros failures evs; simpl; [done|].
  destruct (first_syncing _) as [c|] eqn:Hc.
  - intros [= <- _]. apply first_syncing_Some in Hc as (_ & _ & _ & _ & Hs). done.
  - destruct (get_any_client_loop fuel clients_at (S failures)) as [[c evs']|] eqn:Hl;
      simpl; [|done].
    intros [= <- _]. by eapply IH.
Qed.

Lemma get_any_client_loop_spec clients_at n client :
  ∀ fuel failures,
  (∀ k, k < n → first_syncing (od_values (clients_at (failures + k))) = None) →
  first_syncing (od_values (clients_at (failures + n))) = Some client →
  get_any_client_loop fuel clients_at failures =
    if decide (n < fuel)
    then Some (client, waiting_events get_any_client_warning [] 300 failures n)
    else None.
Proof.
  induction n as [|n IH]; intros fuel failures Hbefore Hat.
  - rewrite Nat.add_0_r in Hat.
    destruct fuel as [|fuel]; [by rewrite decide_False by lia|].
    cbn [get_any_client_loop]. rewrite Hat. by rewrite decide_True by lia.
  - destruct fuel as [|fuel]; [by rewrite decide_False by lia|].
    cbn [get_any_client_loop].
    specialize (Hbefore 0 ltac:(lia)) as H0. rewrite Nat.add_0_r in H0.
    rewrite H0. rewrite (IH fuel (S failures)).
    + destruct (decide (n < fuel)).
      * by rewrite decide_True by lia.
      * by rewrite decide_False by lia.
    + intros k Hk. replace (S failures + k) with (failures + S k) by lia.
      apply Hbefore. lia.
    + by replace (S failures + n) with (failures + S n) by lia.
Qed.

(** C8. At the first poll at which some registered session is flagged
    as syncing ([n = 0]: at the call), [get_any_client] returns the first
    syncing session in the order of [self.clients], every session before
    it in that order not syncing; and whatever it returns, on any run, is
    a session whose [syncing] flag is set. *)
Theorem get_any_client_first_syncing
    (clients_at : nat → odict string MatrixClient) (n : nat) :
  (∀ k, k < n → Forall (λ c, syncing c = false) (od_values (clients_at k))) →
  (∃ c, c ∈ od_values (clients_at n) ∧ syncing c = true) →
  (∃ pre client post,
      od_values (clients_at n) = pre ++ client :: post ∧
      Forall (λ c, syncing c = false) pre ∧ syncing client = true ∧
      ∀ fuel, n < fuel →
        ∃ evs, get_any_client fuel clients_at = Some (client, evs) ∧
               sleeps evs = replicate n poll_interval) ∧
  (∀ fuel clients_at' client evs,
      get_any_client fuel clients_at' = Some (client, evs) → syncing client = true).
Proof.
  intros Hbefore (c & Hin & Hc). split.
  - destruct (first_syncing (od_values (clients_at n))) as [client|] eqn:Hf.
    + pose proof Hf as (pre & post & Heq & Hpre & Hs)%first_syncing_Some.
      exists pre, client, post. split_and!; try done.
      intros fuel Hfuel. eexists. split.
      * unfold get_any_client.
        rewrite (get_any_client_loop_spec clients_at n client).
        -- by rewrite decide_True by lia.
        -- intros k Hk. apply first_syncing_None. by apply Hbefore.
        -- done.
      * apply sleeps_waiting_events.
    + apply first_syncing_None in Hf. rewrite Forall_forall in Hf.
      specialize (Hf c Hin). congruence.
  - intros fuel clients_at' client evs. apply get_any_client_loop_syncing.
Qed.

(** *** Diagnostics of the waits *)

(** The diagnostics of a trace: format, arguments and seconds. *)
Definition warnings (evs : list Event) : list (string * list string * nat) :=
  omap (λ ev, match ev with EvWarning f a s => Some (f, a, s) | _ => None end) evs.

Lemma filter_none {A} (P : A → Prop) `{∀ x, Decision (P x)} (l : list A) :
  (∀ x, x ∈ l → ¬ P x) → filter P l = [].
Proof.
  induction l as [|x l IH]; intros Hp; [done|].
  rewrite filter_cons_False by apply Hp, list_elem_of_here.
  apply IH. intros y Hy. apply Hp, list_elem_of_further, Hy.
Qed.

Lemma warnings_waiting_events format args period failures n :
  warnings (waiting_events format args period failures n) =
    map (λ k, (format, args, k / 10))
      (filter (λ k, k ≠ 0 ∧ k mod period = 0) (seq failures n)).
Proof.
  revert failures. induction n as [|n IH]; intros failures; simpl; [done|].
  rewrite filter_cons. unfold poll_warning.
  destruct (decide (failures ≠ 0 ∧ failures mod period = 0)) as [[H0 Hm]|Hno].
  - apply Nat.eqb_neq in H0. apply Nat.eqb_eq in Hm. rewrite H0, Hm. simpl.
    unfold warnings at 1. simpl. fold warnings. by rewrite IH.
  - assert (negb (failures =? 0) && (failures mod period =? 0) = false) as ->.
    { apply andb_false_iff.
      destruct (failures =? 0) eqn:H0; [by left|]. right.
      apply Nat.eqb_neq in H0. apply Nat.eqb_neq. tauto. }
    simpl. unfold warnings at 1. simpl. fold warnings. by rewrite IH.
Qed.

Lemma no_warnings_before period n :
  n ≤ period → filter (λ k, k ≠ 0 ∧ k mod period = 0) (seq 0 n) = [].
Proof.
  intros Hn. apply filter_none. intros k Hk [H0 Hm].
  apply elem_of_seq in Hk. rewrite Nat.mod_small in Hm by lia. done.
Qed.

(** X9. [get_client] logs a diagnostic at the failed polls whose count
    is a positive multiple of 100, and only there, with the count divided
    by 10 as the seconds waited; a session that is registered within the
    first 100 polls is returned without any diagnostic. *)
Theorem get_client_warnings
    (clients_at : nat → odict string MatrixClient) (uid : string)
    (n : nat) (client : MatrixClient) :
  (∀ k, k < n → od_get uid (clients_at k) = None) →
  od_get uid (clients_at n) = Some client →
  ∃ evs,
    (∀ fuel, n < fuel → get_client fuel clients_at uid = Some (client, evs)) ∧
    warnings evs =
      map (λ k, (get_client_warning, [uid], k / 10))
        (filter (λ k, k ≠ 0 ∧ k mod 100 = 0) (seq 0 n)) ∧
    (n ≤ 100 → warnings evs = []).
Proof.
  intros Hbefore Hat. eexists. split_and!.
  - intros fuel Hfuel. unfold get_client.
    rewrite (get_client_loop_spec clients_at uid n client) by done.
    by rewrite decide_True by lia.
  - apply warnings_waiting_events.
  - intros Hn. by rewrite warnings_waiting_events, no_warnings_before.
Qed.

(** X10. [get_any_client] logs its diagnostic at the failed polls whose
    count is a positive multiple of 300, and only there; a client that
    syncs within the first 300 polls is returned without any
    diagnostic. *)
Theorem get_any_client_warnings
    (clients_at : nat → odict string MatrixClient) (n : nat) (client : MatrixClient) :
  (∀ k, k < n → first_syncing (od_values (clients_at k)) = None) →
  first_syncing (od_values (clients_at n)) = Some client →
  ∃ evs,
    (∀ fuel, n < fuel → get_any_client fuel clients_at = Some (client, evs)) ∧
    warnings evs =
      map (λ k, (get_any_client_warning, [], k / 10))
        (filter (λ k, k ≠ 0 ∧ k mod 300 = 0) (seq 0 n)) ∧
    (n ≤ 300 → warnings evs = []).
Proof.
  intros Hbefore Hat. eexists. split_and!.
  - intros fuel Hfuel. unfold get_any_client.
    rewrite (get_any_client_loop_spec clients_at n client) by done.
    by rewrite decide_True by lia.
  - apply warnings_waiting_events.
  - intros Hn. by rewrite warnings_waiting_events, no_warnings_before.
Qed.

(** *** Registration and lookup *)

Section registration_and_lookup.
Variable net_resume : MatrixClient → string → string → string → option Exn.
Variable net_logout : MatrixClient → option Exn.

(** X11. [get_client] sees what [resume_client] and [logout_client] did:
    after a resume, whether [client.resume] returned or raised, the
    client is returned at once; after a logout, and for as long as nobody
    registers the user again, the wait goes on. *)
Theorem get_client_after_resume_and_logout
    (b : Backend) (uid token device_id homeserver : string) :
  (∀ fuel,
     get_client (S fuel)
       (λ _, clients (resume_client net_resume uid token device_id homeserver b).2) uid
     = Some (MatrixClient_new uid homeserver (Some device_id), [])) ∧
  (∀ fuel,
     get_client fuel (λ _, clients (logout_client net_logout uid b).2) uid = None).
Proof.
  split.
  - intros fuel. unfold get_client. simpl.
    assert (od_get uid (clients (resume_client net_resume uid token device_id homeserver b).2)
            = Some (MatrixClient_new uid homeserver (Some device_id))) as ->; [|done].
    unfold resume_client, MatrixClient_resume, mbind, M_bind. simpl.
    destruct (net_resume _ _ _ _); simpl; apply od_get_set_eq.
  - intros fuel. apply get_client_keeps_polling. intros _.
    unfold logout_client, clients_pop, accounts_pop, saved_accounts_delete,
      MatrixClient_logout, emit, od_pop, mbind, M_bind. simpl.
    destruct (od_get uid (clients b)) as [c|]; simpl;
      [destruct (net_logout c); simpl|]; apply od_get_remove_eq.
Qed.
End registration_and_lookup.

(** *** Media *)

(** A response of nio to a media request: the content, or an error
    response ([nio.ThumbnailError], [nio.DownloadError]) with its status
    code and message. *)
Inductive NioResponse :=
| NioContent (body : string)
| NioError (status_code message : string).

Section media.
(** What the server answers to the request of a client, and the reason
    that [MatrixError.from_nio] gives to the error it builds ([errors.py]
    is not among the available sources). *)
Variable net_thumbnail : MatrixClient → string → string → Z → Z → NioResponse.
Variable net_download : MatrixClient → string → string → NioResponse.
Variable from_nio_reason : string → string → string.

(** [if isinstance(response, nio.XError): raise MatrixError.from_nio(response)]
    and [return response] *)
Definition raise_if_error (response : NioResponse) : Result NioResponse :=
  match response with
  | NioError status_code message => Raise (MatrixError (from_nio_reason status_code message))
  | NioContent _ => Return response
  end.

Definition thumbnail
    (fuel : nat) (clients_at : nat → odict string MatrixClient)
    (server_name media_id : string) (width height : Z)
    : option (Result NioResponse * list Event) :=
  '(client, evs) ← get_any_client fuel clients_at;
  let response := net_thumbnail client server_name media_id width height in
  Some (raise_if_error response, evs).

Definition download
    (fuel : nat) (clients_at : nat → odict string MatrixClient)
    (server_name media_id : string)
    : option (Result NioResponse * list Event) :=
  '(client, evs) ← get_any_client fuel clients_at;
  let response := net_download client server_name media_id in
  Some (raise_if_error response, evs).

(** X16. [thumbnail] sends its request through the first client that is
    syncing, once there is one, and turns an error response into a raised
    [MatrixError]; what it returns is never an error response, and was
    answered to a client that is syncing. *)
Theorem thumbnail_outcome
    (clients_at : nat → odict string MatrixClient)
    (server_name media_id : string) (width height : Z) :
  (∀ n client,
     (∀ k, k < n → first_syncing (od_values (clients_at k)) = None) →
     first_syncing (od_values (clients_at n)) = Some client →
     ∀ fuel, n < fuel →
       ∃ evs,
         thumbnail fuel clients_at server_name media_id width height =
           Some (raise_if_error (net_thumbnail client server_name media_id width height),
                 evs) ∧
         sleeps evs = replicate n poll_interval) ∧
  (∀ fuel response evs,
     thumbnail fuel clients_at server_name media_id width height =
       Some (Return response, evs) →
     ∃ client body,
       syncing client = true ∧ response = NioContent body ∧
       net_thumbnail client server_name media_id width height = NioContent body).
Proof.
  split.
  - intros n client Hbefore Hat fuel Hfuel. eexists. split.
    + unfold thumbnail, get_any_client.
      rewrite (get_any_client_loop_spec clients_at n client) by done.
      rewrite decide_True by lia. reflexivity.
    + apply sleeps_waiting_events.
  - intros fuel response evs. unfold thumbnail, get_any_client.
    destruct (get_any_client_loop fuel clients_at 0) as [[client evs']|] eqn:Hc;
      simpl; [|done].
    apply get_any_client_loop_syncing in Hc.
    destruct (net_thumbnail client server_name media_id width height) as [body|c m] eqn:Hr;
      simpl; [|done].
    intros [= <- _]. by exists client, body.
Qed.

(** X17. [download] sends its request through the first client that is
    syncing, once there is one, and turns an error response into a raised
    [MatrixError]; what it returns is never an error response, and was
    answered to a client that is syncing. *)
Theorem download_outcome
    (clients_at : nat → odict string MatrixClient) (server_name media_id : string) :
  (∀ n client,
     (∀ k, k < n → first_syncing (od_values (clients_at k)) = None) →
     first_syncing (od_values (clients_at n)) = Some client →
     ∀ fuel, n < fuel →
       ∃ evs,
         download fuel clients_at server_name media_id =
           Some (raise_if_error (net_download client server_name media_id), evs) ∧
         sleeps evs = replicate n poll_interval) ∧
  (∀ fuel response evs,
     download fuel clients_at server_name media_id = Some (Return response, evs) →
     ∃ client body,
       syncing client = true ∧ response = NioContent body ∧
       net_download client server_name media_id = NioContent body).
Proof.
  split.
  - intros n client Hbefore Hat fuel Hfuel. eexists. split.
    + unfold download, get_any_client.
      rewrite (get_any_client_loop_spec clients_at n client) by done.
      rewrite decide_True by lia. reflexivity.
    + apply sleeps_waiting_events.
  - intros fuel response evs. unfold download, get_any_client.
    destruct (get_any_client_loop fuel clients_at 0) as [[client evs']|] eqn:Hc;
      simpl; [|done].
    apply get_any_client_loop_syncing in Hc.
    destruct (net_download client server_name media_id) as [body|c m] eqn:Hr;
      simpl; [|done].
    intros [= <- _]. by exists client, body.
Qed.
End media.

(** *** The main pane *)

(** Modelled from the spec: the order of the items ([ModelItem.__lt__];
    [models/items.py] is not among the available sources). Accounts are
    ordered by account identity, rooms by room identity. *)
Definition Account_lt (a a' : Account) : bool := String.ltb (user_id a) (user_id a').
Definition Room_lt (r r' : Room) : bool := String.ltb (room_id r) (room_id r').

Section mainpane.
(** The serialization view of an item, and the room models of the store,
    [self.models[Room, user_id]]. *)
Context {Payload : Type}.
Variable Account_serialized : Account → Payload.
Variable Room_serialized : Room → Payload.
Variable models_Room : string → odict string Room.

(** One dictionary of the list handed to QML. *)
Record Row := mkRow {
  row_type    : string;
  row_id      : string;
  row_user_id : string;
  row_data    : Payload;
}.

Definition account_row (account : Account) : Row :=
  mkRow "Account" (user_id account) (user_id account) (Account_serialized account).

Definition room_row (account : Account) (room : Room) : Row :=
  mkRow "Room" (String.concat "/" [user_id account; room_id room])
        (user_id account) (Room_serialized room).

Definition get_flat_mainpane_data (b : Backend) : list Row :=
  fold_left
    (λ data account,
       let data := data ++ [account_row account] in
       fold_left
         (λ data room, data ++ [room_row account room])
         (sorted Room_lt (od_values (models_Room (user_id account))))
         data)
    (sorted Account_lt (od_values (models_Account b)))
    [].

Lemma append_rows_loop {A} (f : A → Row) (l : list A) (data : list Row) :
  fold_left (λ data x, data ++ [f x]) l data = data ++ map f l.
Proof.
  revert data. induction l as [|x l IH]; intros data; simpl.
  - by rewrite app_nil_r.
  - by rewrite IH, <- app_assoc.
Qed.

Lemma mainpane_loop (accounts : list Account) (data : list Row) :
  fold_left
    (λ data account,
       let data := data ++ [account_row account] in
       fold_left
         (λ data room, data ++ [room_row account room])
         (sorted Room_lt (od_values (models_Room (user_id account))))
         data)
    accounts data
  = data ++ flat_map
      (λ account,
         account_row account ::
         map (room_row account)
           (sorted Room_lt (od_values (models_Room (user_id account)))))
      accounts.
Proof.
  revert data. induction accounts as [|a accounts IH]; intros data; simpl.
  - by rewrite app_nil_r.
  - rewrite IH, append_rows_loop, <- !app_assoc. done.
Qed.

Lemma sorted_accounts_by_user_id (l : list Account) :
  StronglySorted (λ a a', String.leb (user_id a) (user_id a') = true)
    (sorted Account_lt l).
Proof.
  eapply StronglySorted_weaken; [|apply (sorted_StronglySorted Account_lt)].
  - intros a a'. unfold not_after, Account_lt. apply string_ltb_false_leb.
  - intros a a'. apply string_ltb_asym.
  - intros a1 a2 a3. unfold not_after, Account_lt.
    rewrite !string_ltb_false_leb. apply string_leb_trans.
Qed.

Lemma sorted_rooms_by_room_id (l : list Room) :
  StronglySorted (λ r r', String.leb (room_id r) (room_id r') = true)
    (sorted Room_lt l).
Proof.
  eapply StronglySorted_weaken; [|apply (sorted_StronglySorted Room_lt)].
  - intros r r'. unfold not_after, Room_lt. apply string_ltb_false_leb.
  - intros r r'. apply string_ltb_asym.
  - intros r1 r2 r3. unfold not_after, Room_lt.
    rewrite !string_ltb_false_leb. apply string_leb_trans.
Qed.

(** C9. [get_flat_mainpane_data] returns, for the accounts of the
    [Account] model in increasing order of user id, the record of the
    account immediately followed by the records of the rooms of that
    account in increasing order of room id, and nothing else. The record
    of an account has type "Account" and the user id as id; the record of
    a room has type "Room", as id the user id of the account and the room
    id joined by "/", and as user_id the user id of the account. *)
Theorem get_flat_mainpane_data_layout (b : Backend) :
  let accounts := sorted Account_lt (od_values (models_Account b)) in
  let rooms_of a := sorted Room_lt (od_values (models_Room (user_id a))) in
  get_flat_mainpane_data b =
    flat_map (λ a, account_row a :: map (room_row a) (rooms_of a)) accounts ∧
  accounts ≡ₚ od_values (models_Account b) ∧
  StronglySorted (λ a a', String.leb (user_id a) (user_id a') = true) accounts ∧
  (∀ a, rooms_of a ≡ₚ od_values (models_Room (user_id a)) ∧
        StronglySorted (λ r r', String.leb (room_id r) (room_id r') = true)
          (rooms_of a)) ∧
  (∀ a, row_type (account_row a) = "Account" ∧
        row_id (account_row a) = user_id a ∧
        row_user_id (account_row a) = user_id a) ∧
  (∀ a r, row_type (room_row a r) = "Room" ∧
          row_id (room_row a r) = (user_id a ++ "/" ++ room_id r)%string ∧
          row_user_id (room_row a r) = user_id a).
Proof.
  intros accounts rooms_of. split_and!.
  - unfold get_flat_mainpane_data. by rewrite mainpane_loop.
  - apply sorted_Permutation.
  - apply sorted_accounts_by_user_id.
  - intros a. split; [apply sorted_Permutation | apply sorted_rooms_by_room_id].
  - done.
  - done.
Qed.
Lemma flat_map_cons_split {A B} (f : A → B) (g : A → list B) (l : list A) :
  flat_map (λ x, f x :: g x) l ≡ₚ map f l ++ flat_map g l.
Proof.
  induction l as [|x l IH]; simpl; [done|].
  rewrite IH. apply Permutation_skip.
  rewrite !app_assoc. apply Permutation_app_tail, Permutation_app_comm.
Qed.

Lemma flat_map_Permutation {A B} (f g : A → list B) (l l' : list A) :
  (∀ x, f x ≡ₚ g x) → l ≡ₚ l' → flat_map f l ≡ₚ flat_map g l'.
Proof.
  intros Hfg Hl. trans (flat_map g l).
  - clear Hl. induction l as [|x l IH]; simpl; [done|]. by rewrite Hfg, IH.
  - by apply Permutation_flat_map.
Qed.

(** [get_flat_mainpane_data] with the comparisons that [sorted] uses,
    the [__lt__] of the accounts and of the rooms, as parameters. *)
Definition get_flat_mainpane_data_by
    (account_lt : Account → Account → bool) (room_lt : Room → Room → bool)
    (b : Backend) : list Row :=
  fold_left
    (λ data account,
       let data := data ++ [account_row account] in
       fold_left
         (λ data room, data ++ [room_row account room])
         (sorted room_lt (od_values (models_Room (user_id account))))
         data)
    (sorted account_lt (od_values (models_Account b)))
    [].

Lemma get_flat_mainpane_data_by_id (b : Backend) :
  get_flat_mainpane_data b = get_flat_mainpane_data_by Account_lt Room_lt b.
Proof. reflexivity. Qed.

Lemma mainpane_loop_by (room_lt : Room → Room → bool)
    (accounts : list Account) (data : list Row) :
  fold_left
    (λ data account,
       let data := data ++ [account_row account] in
       fold_left
         (λ data room, data ++ [room_row account room])
         (sorted room_lt (od_values (models_Room (user_id account))))
         data)
    accounts data
  = data ++ flat_map
      (λ account,
         account_row account ::
         map (room_row account)
           (sorted room_lt (od_values (models_Room (user_id account)))))
      accounts.
Proof.
  revert data. induction accounts as [|a accounts IH]; intros data; simpl.
  - by rewrite app_nil_r.
  - rewrite IH, append_rows_loop, <- !app_assoc. done.
Qed.

(** X18. Whatever comparison the accounts and the rooms define, the
    records of [get_flat_mainpane_data] are, up to their order, one
    record for each account of the [Account] model and one record for
    each room of the room model of each account: none is dropped, none
    appears twice. *)
Theorem get_flat_mainpane_data_complete
    (account_lt : Account → Account → bool) (room_lt : Room → Room → bool)
    (b : Backend) :
  get_flat_mainpane_data_by account_lt room_lt b ≡ₚ
    map account_row (od_values (models_Account b)) ++
    flat_map (λ a, map (room_row a) (od_values (models_Room (user_id a))))
      (od_values (models_Account b)).
Proof.
  unfold get_flat_mainpane_data_by. rewrite mainpane_loop_by. simpl.
  rewrite flat_map_cons_split. apply Permutation_app.
  - apply Permutation_map, sorted_Permutation.
  - apply flat_map_Permutation; [|apply sorted_Permutation].
    intros a. apply Permutation_map, sorted_Permutation.
Qed.
End mainpane.

(** *** Profiles *)

(** Concurrent calls of [get_profile] on one event loop. A task runs
    without interruption from one suspension point to the next; the
    suspension points of [get_profile] are the acquisition of a lock that
    is held, the sleep of [get_any_client] while no client is syncing,
    and the request to the server. A schedule is the list of the tasks
    that the loop resumes, in order. *)

(** [nio.ProfileGetResponse], opaque. *)
Definition Profile := string.

(** Where a call of [get_profile] stands. *)
Inductive Pc :=
| AtCall                        (* not started *)
| WaitingLock                   (* suspended on [async with], the lock is held *)
| WaitingClient (failures : nat)
    (* holds the lock, asleep in [get_any_client] after that many failed polls *)
| Fetching                      (* holds the lock, suspended on the request *)
| Returned (r : Profile)
| Raised (e : Exn).

(** [self.profile_cache], the locks of [self.get_profile_locks] that are
    held, with the task that holds each, the calls with their argument,
    the requests sent so far (task, user id), the number of resumptions
    so far, and the diagnostics and sleeps of the waits for a client. *)
Record Profiles := mkProfiles {
  profile_cache     : gmap string Profile;
  get_profile_locks : gmap string nat;
  calls             : list (string * Pc);
  fetches           : list (nat * string);
  now               : nat;
  polls             : list Event;
}.

(** Inside the body of [async with]. *)
Definition in_body (pc : Pc) : Prop :=
  match pc with
  | WaitingClient _ | Fetching => True
  | _ => False
  end.

(** The request of the call has been sent. *)
Definition past_request (pc : Pc) : Prop :=
  match pc with
  | Fetching | Returned _ | Raised _ => True
  | _ => False
  end.

Section get_profile.
(** The answer of the server to [client.get_profile(user_id)]: a response,
    or a [ProfileGetError] turned into a [MatrixError]; and [self.clients]
    as it is at each resumption. *)
Variable net_get_profile : string → Result Profile.
Variable clients_at : nat → odict string MatrixClient.

(** Closes the side conditions on where a call stands. *)
Ltac pc_done := first [done | by intros [] | by simpl].

Definition set_pc (i : nat) (uid : string) (pc : Pc) (st : Profiles) : Profiles :=
  mkProfiles (profile_cache st) (get_profile_locks st)
    (<[i := (uid, pc)]> (calls st)) (fetches st) (now st) (polls st).

(** [client = await self.get_any_client()], at the poll that follows
    [failures] failed ones, and [await client.get_profile(user_id)]: when a
    client is syncing the request is sent, otherwise the call goes to
    sleep, after the diagnostic if one is due. *)
Definition poll_client (i : nat) (uid : string) (failures : nat) (st : Profiles)
    : Profiles :=
  match first_syncing (od_values (clients_at (now st))) with
  | Some client =>
      mkProfiles (profile_cache st) (get_profile_locks st)
        (<[i := (uid, Fetching)]> (calls st)) (fetches st ++ [(i, uid)])
        (now st) (polls st)
  | None =>
      mkProfiles (profile_cache st) (get_profile_locks st)
        (<[i := (uid, WaitingClient failures)]> (calls st)) (fetches st)
        (now st)
        (polls st ++ poll_warning get_any_client_warning [] 300 failures
                  ++ [EvSleep poll_interval])
  end.

(** The lock of [uid] taken by task [i]. *)
Definition acquire (i : nat) (uid : string) (st : Profiles) : Profiles :=
  mkProfiles (profile_cache st) (<[uid := i]> (get_profile_locks st))
    (calls st) (fetches st) (now st) (polls st).

(** [async with self.get_profile_locks[user_id]:] and the first poll of
    [get_any_client]. The cache is not looked at here. *)
Definition enter_lock (i : nat) (uid : string) (st : Profiles) : Profiles :=
  match get_profile_locks st !! uid with
  | Some _ => set_pc i uid WaitingLock st
  | None => poll_client i uid 0 (acquire i uid st)
  end.

(** The rest of the body once the server has answered; the lock is
    released on both exits. *)
Definition finish (i : nat) (uid : string) (st : Profiles) : Profiles :=
  match net_get_profile uid with
  | Raise e =>
      mkProfiles (profile_cache st) (delete uid (get_profile_locks st))
        (<[i := (uid, Raised e)]> (calls st)) (fetches st) (now st) (polls st)
  | Return response =>
      mkProfiles (<[uid := response]> (profile_cache st))
        (delete uid (get_profile_locks st))
        (<[i := (uid, Returned response)]> (calls st)) (fetches st)
        (now st) (polls st)
  end.

(** Task [i] runs up to its next suspension point. *)
Definition resume (st : Profiles) (i : nat) : Profiles :=
  match calls st !! i with
  | Some (uid, AtCall) =>
      match profile_cache st !! uid with
      | Some r => set_pc i uid (Returned r) st
      | None => enter_lock i uid st
      end
  | Some (uid, WaitingLock) => enter_lock i uid st
  | Some (uid, WaitingClient failures) => poll_client i uid (S failures) st
  | Some (uid, Fetching) => finish i uid st
  | _ => st
  end.

Definition tick (st : Profiles) : Profiles :=
  mkProfiles (profile_cache st) (get_profile_locks st) (calls st) (fetches st)
    (S (now st)) (polls st).

(** The loop resumes task [i]. *)
Definition get_profile_step (st : Profiles) (i : nat) : Profiles :=
  tick (resume st i).

Definition get_profile_run (st : Profiles) (schedule : list nat) : Profiles :=
  fold_left get_profile_step schedule st.

(** Calls of [get_profile] issued on a backend whose cache holds
    [cache]. *)
Definition get_profile_calls (cache : gmap string Profile) (uids : list string)
    : Profiles :=
  mkProfiles cache ∅ (map (λ uid, (uid, AtCall)) uids) [] 0 [].

(** Every call inside the body of [async with] holds the lock of its user
    id. *)
Definition locks_held (st : Profiles) : Prop :=
  ∀ i uid pc, calls st !! i = Some (uid, pc) → in_body pc →
              get_profile_locks st !! uid = Some i.

Lemma calls_lookup_insert (l : list (string * Pc)) i j x y :
  <[i := x]> l !! j = Some y →
  (i = j ∧ x = y ∧ i < length l) ∨ (i ≠ j ∧ l !! j = Some y).
Proof.
  intros Hl. destruct (decide (i = j)) as [->|Hne].
  - left. destruct (decide (j < length l)) as [Hlt|Hge].
    + rewrite list_lookup_insert_eq in Hl by done. by injection Hl as ->.
    + rewrite list_insert_ge in Hl by lia.
      apply lookup_lt_Some in Hl. lia.
  - right. by rewrite list_lookup_insert_ne in Hl.
Qed.

Lemma locks_held_set_pc i uid pc st :
  ¬ in_body pc → locks_held st → locks_held (set_pc i uid pc st).
Proof.
  intros Hpc Hst j u pcj Hj Hb. simpl in *.
  apply calls_lookup_insert in Hj as [(_ & Heq & _)|[_ Hj]].
  - injection Heq as _ <-. done.
  - by apply (Hst j u pcj).
Qed.

Lemma locks_held_poll_client i uid failures st :
  get_profile_locks st !! uid = Some i →
  locks_held st → locks_held (poll_client i uid failures st).
Proof.
  intros Hlock Hst. unfold poll_client.
  destruct (first_syncing _); intros j u pcj Hj Hb; simpl in *;
    (apply calls_lookup_insert in Hj as [(<- & Heq & _)|[_ Hj]];
     [by injection Heq as <- <- | by apply (Hst j u pcj)]).
Qed.

Lemma locks_held_enter_lock i uid st :
  locks_held st → locks_held (enter_lock i uid st).
Proof.
  intros Hst. unfold enter_lock.
  destruct (get_profile_locks st !! uid) as [h|] eqn:Hlock.
  - apply locks_held_set_pc; pc_done.
  - apply locks_held_poll_client; [apply lookup_insert_eq|].
    intros j u pcj Hj Hb. simpl in *.
    rewrite lookup_insert_ne; [by apply (Hst j u pcj)|].
    intros <-. rewrite (Hst j uid pcj Hj Hb) in Hlock. done.
Qed.

Lemma locks_held_finish i uid st :
  calls st !! i = Some (uid, Fetching) →
  locks_held st → locks_held (finish i uid st).
Proof.
  intros Hi Hst. unfold finish.
  assert (get_profile_locks st !! uid = Some i) as Hlock by (by apply (Hst i uid Fetching)).
  destruct (net_get_profile uid) as [r|e]; intros j u pcj Hj Hb; simpl in *;
    (apply calls_lookup_insert in Hj as [(_ & Heq & _)|[Hne Hj]];
     [injection Heq as _ <-; by destruct Hb|]);
    (rewrite lookup_delete_ne; [by apply (Hst j u pcj)|]);
    intros <-; rewrite (Hst j uid pcj Hj Hb) in Hlock; congruence.
Qed.

Lemma locks_held_resume st i : locks_held st → locks_held (resume st i).
Proof.
  intros Hst. unfold resume.
  destruct (calls st !! i) as [[uid pc]|] eqn:Hi; [|done].
  destruct pc; try done.
  - destruct (profile_cache st !! uid).
    + apply locks_held_set_pc; pc_done.
    + apply locks_held_enter_lock; pc_done.
  - apply locks_held_enter_lock; pc_done.
  - apply locks_held_poll_client; [|done]. by apply (Hst i uid (WaitingClient failures)).
  - apply locks_held_finish; pc_done.
Qed.

Lemma locks_held_step st i : locks_held st → locks_held (get_profile_step st i).
Proof. intros Hst. exact (locks_held_resume st i Hst). Qed.

Lemma locks_held_run st schedule :
  locks_held st → locks_held (get_profile_run st schedule).
Proof.
  unfold get_profile_run. revert st.
  induction schedule as [|i schedule IH]; intros st Hst; simpl; [done|].
  by apply IH, locks_held_step.
Qed.

(** The part of the guarantee that the lock does give: whatever the
    schedule, two requests for one user id are never in flight at the
    same instant. *)
Lemma get_profile_one_in_flight cache uids schedule i j uid :
  let st := get_profile_run (get_profile_calls cache uids) schedule in
  calls st !! i = Some (uid, Fetching) →
  calls st !! j = Some (uid, Fetching) →
  i = j.
Proof.
  intros st Hi Hj.
  assert (locks_held st) as Hst.
  { apply locks_held_run. intros k u pc Hk Hb. simpl in Hk.
    rewrite list_lookup_fmap in Hk.
    destruct (uids !! k); simpl in Hk; [|done]. injection Hk as <- <-. done. }
  pose proof (Hst i uid Fetching Hi I) as H1.
  pose proof (Hst j uid Fetching Hj I) as H2. congruence.
Qed.

(** *** What every schedule keeps *)

Lemma get_profile_run_invariant (P : Profiles → Prop) :
  (∀ st i, P st → P (get_profile_step st i)) →
  ∀ st schedule, P st → P (get_profile_run st schedule).
Proof.
  intros Hstep st schedule. unfold get_profile_run. revert st.
  induction schedule as [|i schedule IH]; intros st Hst; simpl; [done|].
  by apply IH, Hstep.
Qed.

(** Every lock that is held belongs to a call that is inside the body of
    [async with]. *)
Definition locks_owned (st : Profiles) : Prop :=
  ∀ uid i, get_profile_locks st !! uid = Some i →
           ∃ pc, calls st !! i = Some (uid, pc) ∧ in_body pc.

Lemma locks_owned_set_pc i uid pc0 pc st :
  calls st !! i = Some (uid, pc0) → ¬ in_body pc0 →
  locks_owned st → locks_owned (set_pc i uid pc st).
Proof.
  intros Hi Hpc Hst u j Hl. simpl in *.
  destruct (Hst u j Hl) as (pcj & Hj & Hb). exists pcj. split; [|done].
  rewrite list_lookup_insert_ne; [done|]. intros ->.
  rewrite Hi in Hj. injection Hj as -> ->. done.
Qed.

Lemma locks_owned_poll_client i uid failures st :
  i < length (calls st) →
  (∀ u j, get_profile_locks st !! u = Some j →
          (u = uid ∧ j = i) ∨
          (j ≠ i ∧ ∃ pc, calls st !! j = Some (u, pc) ∧ in_body pc)) →
  locks_owned (poll_client i uid failures st).
Proof.
  intros Hi Hst. unfold poll_client.
  destruct (first_syncing _); intros u j Hl; simpl in *;
    (destruct (Hst u j Hl) as [[-> ->]|[Hne (pc & Hj & Hb)]];
     [eexists; split; [by apply list_lookup_insert_eq | done]
     |exists pc; split; [by rewrite list_lookup_insert_ne | done]]).
Qed.

Lemma locks_owned_enter_lock i uid pc0 st :
  calls st !! i = Some (uid, pc0) → ¬ in_body pc0 →
  locks_owned st → locks_owned (enter_lock i uid st).
Proof.
  intros Hi Hpc Hst. unfold enter_lock.
  destruct (get_profile_locks st !! uid) as [h|] eqn:Hlock.
  - apply (locks_owned_set_pc i uid pc0); pc_done.
  - apply locks_owned_poll_client; simpl; [by apply lookup_lt_Some in Hi|].
    intros u j Hl. apply lookup_insert_Some in Hl as [[<- <-]|[Hne Hl]]; [by left|].
    right. destruct (Hst u j Hl) as (pc & Hj & Hb). split; [|by exists pc].
    intros ->. rewrite Hi in Hj. injection Hj as -> ->. done.
Qed.

Lemma locks_owned_waiting i uid failures0 failures st :
  calls st !! i = Some (uid, WaitingClient failures0) →
  locks_owned st → locks_owned (poll_client i uid failures st).
Proof.
  intros Hi Hst. apply locks_owned_poll_client; [by apply lookup_lt_Some in Hi|].
  intros u j Hl. destruct (Hst u j Hl) as (pc & Hj & Hb).
  destruct (decide (j = i)) as [->|Hne].
  - left. rewrite Hi in Hj. by injection Hj as ->.
  - right. split; [done|]. by exists pc.
Qed.

Lemma locks_owned_finish i uid st :
  calls st !! i = Some (uid, Fetching) →
  locks_owned st → locks_owned (finish i uid st).
Proof.
  intros Hi Hst. unfold finish.
  destruct (net_get_profile uid) as [r|e]; intros u j Hl; simpl in *;
    apply lookup_delete_Some in Hl as [Hne Hl];
    destruct (Hst u j Hl) as (pc & Hj & Hb); exists pc; (split; [|done]);
    (rewrite list_lookup_insert_ne; [done|]); intros ->; congruence.
Qed.

Lemma locks_owned_resume st i : locks_owned st → locks_owned (resume st i).
Proof.
  intros Hst. unfold resume.
  destruct (calls st !! i) as [[uid pc]|] eqn:Hi; [|done].
  destruct pc; try done.
  - destruct (profile_cache st !! uid).
    + apply (locks_owned_set_pc i uid AtCall); pc_done.
    + apply (locks_owned_enter_lock i uid AtCall); pc_done.
  - apply (locks_owned_enter_lock i uid WaitingLock); pc_done.
  - apply (locks_owned_waiting i uid failures); pc_done.
  - apply locks_owned_finish; pc_done.
Qed.

(** X12. On every schedule, a lock of [get_profile_locks] is held only
    by a call that is inside the body of [async with], waiting for a
    syncing client or with its request in flight: the lock is released
    when the call returns and when it raises, so that once no call is
    inside that body no lock is held. *)
Theorem get_profile_locks_released
    (cache : gmap string Profile) (uids : list string) (schedule : list nat) :
  let st := get_profile_run (get_profile_calls cache uids) schedule in
  (∀ uid i, get_profile_locks st !! uid = Some i →
            calls st !! i = Some (uid, Fetching) ∨
            ∃ failures, calls st !! i = Some (uid, WaitingClient failures)) ∧
  ((∀ i uid pc, calls st !! i = Some (uid, pc) → ¬ in_body pc) →
   get_profile_locks st = ∅).
Proof.
  intros st.
  assert (locks_owned st) as Hst.
  { apply get_profile_run_invariant; [intros st' i; apply locks_owned_resume|].
    intros u j Hl. simpl in Hl. by rewrite lookup_empty in Hl. }
  split.
  - intros uid i Hl. destruct (Hst uid i Hl) as (pc & Hi & Hb).
    destruct pc; try done; [right; by eexists | by left].
  - intros Hnone. apply map_empty. intros uid.
    destruct (get_profile_locks st !! uid) as [i|] eqn:Hl; [|done].
    destruct (Hst uid i Hl) as (pc & Hi & Hb). by apply Hnone in Hi.
Qed.

(** X13. On every schedule, [profile_cache] holds for a user id only
    what it held at the start or a response of the server for that user
    id: the error of a failed request is raised to the caller and never
    cached. *)
Theorem get_profile_cache_sound
    (cache : gmap string Profile) (uids : list string) (schedule : list nat)
    (uid : string) (r : Profile) :
  profile_cache (get_profile_run (get_profile_calls cache uids) schedule) !! uid = Some r →
  cache !! uid = Some r ∨ net_get_profile uid = Return r.
Proof.
  revert uid r.
  apply (get_profile_run_invariant
           (λ st, ∀ uid r, profile_cache st !! uid = Some r →
                           cache !! uid = Some r ∨ net_get_profile uid = Return r)).
  - intros st i Hst. unfold get_profile_step, resume, enter_lock, poll_client.
    destruct (calls st !! i) as [[u pc]|]; [|done].
    destruct pc; try done.
    + destruct (profile_cache st !! u) eqn:Hc; [done|]. simpl.
      destruct (get_profile_locks st !! u); [done|]. by destruct (first_syncing _).
    + destruct (get_profile_locks st !! u); [done|]. simpl.
      by destruct (first_syncing _).
    + by destruct (first_syncing _).
    + unfold finish. destruct (net_get_profile u) as [resp|e] eqn:Hnet; [|done].
      intros uid r Hl. simpl in Hl.
      apply lookup_insert_Some in Hl as [[<- <-]|[_ Hl]]; [by right | by apply Hst].
  - intros uid r Hl. by left.
Qed.

(** Every request was sent by a call that is past its cache test, its
    wait for the lock and its wait for a client, and no call sent two. *)
Definition fetched_once (st : Profiles) : Prop :=
  NoDup (fetches st).*1 ∧
  ∀ i, i ∈ (fetches st).*1 →
       ∃ uid pc, calls st !! i = Some (uid, pc) ∧ past_request pc.

Lemma fetched_once_set_pc i uid pc0 pc st :
  calls st !! i = Some (uid, pc0) → ¬ past_request pc0 →
  fetched_once st → fetched_once (set_pc i uid pc st).
Proof.
  intros Hi Hpc [Hnd Hst]. split; [done|]. intros j Hj. simpl in *.
  destruct (Hst j Hj) as (u & pcj & Hcj & Hp).
  exists u, pcj. split; [|done].
  rewrite list_lookup_insert_ne; [done|]. intros ->.
  rewrite Hi in Hcj. injection Hcj as -> ->. done.
Qed.

Lemma fetched_once_poll_client i uid pc0 failures st :
  calls st !! i = Some (uid, pc0) → ¬ past_request pc0 →
  fetched_once st → fetched_once (poll_client i uid failures st).
Proof.
  intros Hi Hpc [Hnd Hst].
  assert (i ∉ (fetches st).*1) as Hfresh.
  { intros Hin. destruct (Hst i Hin) as (u & pci & Hci & Hp).
    rewrite Hi in Hci. injection Hci as -> ->. done. }
  unfold poll_client. destruct (first_syncing _); split; simpl.
  - rewrite fmap_app. apply NoDup_app. split_and!; [done| |apply NoDup_singleton].
    intros j Hj Hj'. apply list_elem_of_singleton in Hj'. simpl in Hj'. congruence.
  - intros j Hj. rewrite fmap_app in Hj. apply elem_of_app in Hj as [Hj|Hj].
    + destruct (Hst j Hj) as (u & pcj & Hcj & Hp).
      exists u, pcj. split; [|done].
      rewrite list_lookup_insert_ne; [done|]. intros ->. done.
    + apply list_elem_of_singleton in Hj. simpl in Hj. subst j.
      exists uid, Fetching. split; [|done].
      apply list_lookup_insert_eq. by apply lookup_lt_Some in Hi.
  - done.
  - intros j Hj. destruct (Hst j Hj) as (u & pcj & Hcj & Hp).
    exists u, pcj. split; [|done].
    rewrite list_lookup_insert_ne; [done|]. intros ->. done.
Qed.

Lemma fetched_once_enter_lock i uid pc0 st :
  calls st !! i = Some (uid, pc0) → ¬ past_request pc0 →
  fetched_once st → fetched_once (enter_lock i uid st).
Proof.
  intros Hi Hpc Hst. unfold enter_lock.
  destruct (get_profile_locks st !! uid) as [h|] eqn:Hlock.
  - apply (fetched_once_set_pc i uid pc0); pc_done.
  - apply (fetched_once_poll_client i uid pc0); pc_done.
Qed.

Lemma fetched_once_finish i uid st :
  calls st !! i = Some (uid, Fetching) →
  fetched_once st → fetched_once (finish i uid st).
Proof.
  intros Hi [Hnd Hst]. unfold finish.
  destruct (net_get_profile uid) as [r|e]; (split; [done|]); intros j Hj; simpl in *;
    (destruct (decide (i = j)) as [<-|Hne];
     [eexists _, _; split;
        [apply list_lookup_insert_eq; by apply lookup_lt_Some in Hi | done]
     |destruct (Hst j Hj) as (u & pcj & Hcj & Hp);
      exists u, pcj; split; [by rewrite list_lookup_insert_ne | done]]).
Qed.

Lemma fetched_once_resume st i : fetched_once st → fetched_once (resume st i).
Proof.
  intros Hst. unfold resume.
  destruct (calls st !! i) as [[uid pc]|] eqn:Hi; [|done].
  destruct pc; try done.
  - destruct (profile_cache st !! uid).
    + apply (fetched_once_set_pc i uid AtCall); pc_done.
    + apply (fetched_once_enter_lock i uid AtCall); pc_done.
  - apply (fetched_once_enter_lock i uid WaitingLock); pc_done.
  - apply (fetched_once_poll_client i uid (WaitingClient failures)); pc_done.
  - apply fetched_once_finish; pc_done.
Qed.

Lemma length_calls_step st i : length (calls (get_profile_step st i)) = length (calls st).
Proof.
  unfold get_profile_step, resume, enter_lock, poll_client, finish, set_pc.
  destruct (calls st !! i) as [[uid pc]|]; [|done].
  destruct pc; try done; simpl.
  - destruct (profile_cache st !! uid); simpl; [apply length_insert|].
    destruct (get_profile_locks st !! uid); simpl; [apply length_insert|].
    destruct (first_syncing _); simpl; apply length_insert.
  - destruct (get_profile_locks st !! uid); simpl; [apply length_insert|].
    destruct (first_syncing _); simpl; apply length_insert.
  - destruct (first_syncing _); simpl; apply length_insert.
  - destruct (net_get_profile uid); simpl; apply length_insert.
Qed.

(** X14. On every schedule, a call of [get_profile] sends at most one
    request: no call appears twice among the requests sent, and there are
    never more requests than calls. *)
Theorem get_profile_one_fetch_per_call
    (cache : gmap string Profile) (uids : list string) (schedule : list nat) :
  let st := get_profile_run (get_profile_calls cache uids) schedule in
  NoDup (fetches st).*1 ∧ length (fetches st) ≤ length uids.
Proof.
  intros st.
  assert (fetched_once st ∧ length (calls st) = length uids) as [[Hnd Hst] Hlen].
  { apply (get_profile_run_invariant
             (λ st, fetched_once st ∧ length (calls st) = length uids)).
    - intros st' i [H1 H2]. split; [exact (fetched_once_resume st' i H1)|].
      by rewrite length_calls_step.
    - split; [|simpl; apply length_map].
      split; [constructor|]. intros i Hi. by apply elem_of_nil in Hi. }
  split; [done|].
  assert (length (fetches st).*1 ≤ length (seq 0 (length (calls st)))) as Hle.
  { apply submseteq_length, NoDup_submseteq; [done|].
    intros i Hi. destruct (Hst i Hi) as (u & pc & Hc & _).
    apply elem_of_seq. apply lookup_lt_Some in Hc. lia. }
  rewrite length_seq, length_fmap in Hle. lia.
Qed.

(** *** Calls one after the other *)

Lemma get_profile_cached_calls (u : string) (r : Profile) (m : nat) :
  ∀ (over : list (string * Pc)) cache locks sent t log,
  cache !! u = Some r →
  get_profile_run
    (mkProfiles cache locks (over ++ replicate m (u, AtCall)) sent t log)
    (seq (length over) m)
  = mkProfiles cache locks (over ++ replicate m (u, Returned r)) sent (t + m) log.
Proof.
  induction m as [|m IH]; intros over cache locks sent t log Hc.
  { simpl. by rewrite Nat.add_0_r. }
  unfold get_profile_run. simpl. unfold get_profile_step at 2, resume. simpl.
  rewrite list_lookup_middle by reflexivity. rewrite Hc. unfold set_pc, tick. simpl.
  rewrite insert_app_r_alt by lia. rewrite Nat.sub_diag. simpl.
  rewrite (cons_middle (u, Returned r)), app_assoc.
  replace (S (length over)) with (length (over ++ [(u, Returned r)]))
    by (rewrite length_app; simpl; lia).
  pose proof (IH (over ++ [(u, Returned r)]) cache locks sent (S t) log Hc) as Hrun.
  unfold get_profile_run in Hrun. rewrite Hrun.
  rewrite <- app_assoc. f_equal. lia.
Qed.

(** A call asleep in [get_any_client] that is resumed until a client is
    syncing. *)
Lemma get_profile_waiting (u : string) (client : MatrixClient)
    (rest : list (string * Pc)) (m : nat) :
  ∀ (st : Profiles) (failures : nat),
  calls st = (u, WaitingClient failures) :: rest →
  (∀ k, k < m → first_syncing (od_values (clients_at (now st + k))) = None) →
  first_syncing (od_values (clients_at (now st + m))) = Some client →
  get_profile_run st (replicate (S m) 0) =
    mkProfiles (profile_cache st) (get_profile_locks st) ((u, Fetching) :: rest)
      (fetches st ++ [(0, u)]) (now st + S m)
      (polls st ++ waiting_events get_any_client_warning [] 300 (S failures) m).
Proof.
  induction m as [|m IH]; intros st failures Hcalls Hbefore Hat.
  - rewrite Nat.add_0_r in Hat. unfold get_profile_run. simpl.
    unfold get_profile_step, resume, poll_client, tick. rewrite Hcalls. simpl.
    rewrite Hat. simpl. rewrite app_nil_r. f_equal. lia.
  - pose proof (Hbefore 0 ltac:(lia)) as H0. rewrite Nat.add_0_r in H0.
    unfold get_profile_run. cbn [replicate fold_left].
    assert (get_profile_step st 0 =
            mkProfiles (profile_cache st) (get_profile_locks st)
              ((u, WaitingClient (S failures)) :: rest) (fetches st) (S (now st))
              (polls st ++ poll_warning get_any_client_warning [] 300 (S failures)
                        ++ [EvSleep poll_interval])) as ->.
    { unfold get_profile_step, resume, poll_client, tick. rewrite Hcalls. simpl.
      by rewrite H0. }
    pose proof (IH (mkProfiles (profile_cache st) (get_profile_locks st)
                      ((u, WaitingClient (S failures)) :: rest) (fetches st)
                      (S (now st))
                      (polls st ++ poll_warning get_any_client_warning [] 300 (S failures)
                                ++ [EvSleep poll_interval]))
                  (S failures) eq_refl) as Hrun.
    unfold get_profile_run in Hrun. cbn [replicate] in Hrun. simpl in Hrun.
    rewrite Hrun.
    + f_equal; [lia|]. rewrite <- !app_assoc. done.
    + intros k Hk. replace (S (now st + k)) with (now st + S k) by lia.
      apply Hbefore. lia.
    + by replace (S (now st + m)) with (now st + S m) by lia.
Qed.

(** X15. Calls of [get_profile] for one user made one after the other,
    each starting when the one before is over, on an empty cache and with
    a server that answers, send a single request once a client is
    syncing: the first call takes the lock, sleeps until the poll at
    which a client is syncing, fetches the profile and caches it; every
    later call returns the cached response without taking the lock. *)
Theorem get_profile_sequential_calls
    (u : string) (r : Profile) (client : MatrixClient) (n m : nat) :
  net_get_profile u = Return r →
  (∀ k, k < m → first_syncing (od_values (clients_at k)) = None) →
  first_syncing (od_values (clients_at m)) = Some client →
  get_profile_run (get_profile_calls ∅ (replicate (S n) u))
    (replicate (S m) 0 ++ 0 :: seq 1 n) =
    mkProfiles {[u := r]} ∅ (replicate (S n) (u, Returned r)) [(0, u)]
      (S (S m) + n)
      (waiting_events get_any_client_warning [] 300 0 m).
Proof.
  intros Hnet Hbefore Hat.
  assert (get_profile_run (get_profile_calls ∅ (replicate (S n) u)) (replicate (S m) 0)
          = mkProfiles ∅ {[u := 0]} ((u, Fetching) :: replicate n (u, AtCall))
              [(0, u)] (S m) (waiting_events get_any_client_warning [] 300 0 m))
    as Hsent.
  { assert (map (λ uid : string, (uid, AtCall)) (replicate n u)
            = replicate n (u, AtCall)) as Hmap.
    { clear. induction n as [|n IH]; simpl; [done|]. by rewrite IH. }
    destruct m as [|m].
    - unfold get_profile_run. simpl.
      unfold get_profile_step, resume, enter_lock, poll_client, acquire, tick. simpl.
      rewrite !lookup_empty. simpl. rewrite Hat. simpl. by rewrite Hmap.
    - pose proof (Hbefore 0 ltac:(lia)) as H0.
      unfold get_profile_run. set (st0 := get_profile_calls ∅ (replicate (S n) u)).
      cbn [replicate fold_left].
      assert (get_profile_step st0 0 =
              mkProfiles ∅ {[u := 0]} ((u, WaitingClient 0) :: replicate n (u, AtCall))
                [] 1 [EvSleep poll_interval]) as ->.
      { unfold st0, get_profile_step, resume, enter_lock, poll_client, acquire, tick. simpl.
        rewrite !lookup_empty. simpl. rewrite H0. simpl. by rewrite Hmap. }
      pose proof (get_profile_waiting u client (replicate n (u, AtCall)) m
                    (mkProfiles ∅ {[u := 0]}
                       ((u, WaitingClient 0) :: replicate n (u, AtCall))
                       [] 1 [EvSleep poll_interval]) 0 eq_refl) as Hrun.
      unfold get_profile_run in Hrun. cbn [replicate] in Hrun. simpl in Hrun.
      rewrite Hrun; [done| |done].
      intros k Hk. apply Hbefore. lia. }
  unfold get_profile_run in *. rewrite fold_left_app, Hsent. cbn [fold_left].
  assert (get_profile_step
            (mkProfiles ∅ {[u := 0]} ((u, Fetching) :: replicate n (u, AtCall))
               [(0, u)] (S m) (waiting_events get_any_client_warning [] 300 0 m)) 0
          = mkProfiles {[u := r]} ∅ ((u, Returned r) :: replicate n (u, AtCall))
              [(0, u)] (S (S m)) (waiting_events get_any_client_warning [] 300 0 m))
    as ->.
  { unfold get_profile_step, resume, finish, tick. simpl. rewrite Hnet. simpl.
    by rewrite delete_singleton_eq. }
  pose proof (get_profile_cached_calls u r n [(u, Returned r)] {[u := r]} ∅ [(0, u)]
                (S (S m)) (waiting_events get_any_client_warning [] 300 0 m)) as Hrun.
  unfold get_profile_run in Hrun. simpl in Hrun. rewrite Hrun; [done|].
  apply lookup_singleton_eq.
Qed.
End get_profile.

(** *** Resuming the saved accounts *)

(** [asyncio.gather] over the coroutines, with [return_exceptions] left at its
    default: every coroutine becomes a task of the loop; the awaiting
    caller gets the list of the results, in the order of the arguments,
    once all the tasks have returned, or the first exception raised by a
    task, as soon as it is raised. The other tasks are not cancelled, and
    nobody awaits them. *)

(** A task of [resume]: still suspended in [client.resume], with the
    number of turns of the loop before the server answers and the answer
    it will get, or over. *)
Inductive TaskState :=
| Running (turns : nat) (answer : Result string)
| Finished (outcome : Result string).

Definition finished (t : TaskState) : bool :=
  match t with Finished _ => true | Running _ _ => false end.

(** One turn of the loop for a task. *)
Definition turn (t : TaskState) : TaskState :=
  match t with
  | Running 0 answer => Finished answer
  | Running (S n) answer => Running n answer
  | Finished outcome => Finished outcome
  end.

(** The exception of the first task that raised, if any. *)
Fixpoint first_raised (tasks : list TaskState) : option Exn :=
  match tasks with
  | [] => None
  | Finished (Raise e) :: _ => Some e
  | _ :: tasks => first_raised tasks
  end.

(** The results of the tasks, when all of them returned. *)
Fixpoint all_returned (tasks : list TaskState) : option (list string) :=
  match tasks with
  | [] => Some []
  | Finished (Return r) :: tasks => rs ← all_returned tasks; Some (r :: rs)
  | _ => None
  end.

(** [await asyncio.gather(...)]: the caller is resumed with an exception
    or with the results; until then the loop turns. *)
Fixpoint gather (fuel : nat) (tasks : list TaskState)
    : option (Result (list string) * list TaskState) :=
  match first_raised tasks with
  | Some e => Some (Raise e, tasks)
  | None =>
      match all_returned tasks with
      | Some rs => Some (Return rs, tasks)
      | None =>
          match fuel with
          | 0 => None
          | S fuel => gather fuel (map turn tasks)
          end
      end
  end.

(** The answer a task ends with, and the turns before it is over. *)
Definition eventual (t : TaskState) : Result string :=
  match t with Running _ answer => answer | Finished outcome => outcome end.

Definition remaining (t : TaskState) : nat :=
  match t with Running n _ => S n | Finished _ => 0 end.

Definition max_remaining (tasks : list TaskState) : nat :=
  foldr Nat.max 0 (map remaining tasks).

(** The tasks [n] turns of the loop later. *)
Fixpoint after_turns (n : nat) (tasks : list TaskState) : list TaskState :=
  match n with
  | 0 => tasks
  | S n => after_turns n (map turn tasks)
  end.

Lemma eventual_turn t : eventual (turn t) = eventual t.
Proof. by destruct t as [[|n] a|o]. Qed.

Lemma remaining_turn t : remaining (turn t) = pred (remaining t).
Proof. by destruct t as [[|n] a|o]. Qed.

Lemma max_remaining_turn tasks :
  max_remaining (map turn tasks) = pred (max_remaining tasks).
Proof.
  unfold max_remaining. induction tasks as [|t tasks IH]; simpl; [done|].
  rewrite IH, remaining_turn. lia.
Qed.

Lemma max_remaining_0 tasks :
  max_remaining tasks = 0 → Forall (λ t, finished t = true) tasks.
Proof.
  unfold max_remaining. induction tasks as [|t tasks IH]; simpl; intros Hm.
  - constructor.
  - constructor; [|apply IH; lia]. destruct t; [simpl in Hm; lia | done].
Qed.

Lemma all_returned_Some tasks rs :
  all_returned tasks = Some rs →
  map eventual tasks = map Return rs ∧ Forall (λ t, finished t = true) tasks.
Proof.
  revert rs. induction tasks as [|t tasks IH]; intros rs; simpl.
  - intros [= <-]. by split.
  - destruct t as [n a|[r|e]]; try done.
    destruct (all_returned tasks) as [rs'|]; simpl; [|done].
    intros [= <-]. destruct (IH rs' eq_refl) as [-> Hf]. split; [done|].
    by constructor.
Qed.

Lemma all_returned_None tasks :
  first_raised tasks = None → all_returned tasks = None → 0 < max_remaining tasks.
Proof.
  unfold max_remaining. induction tasks as [|t tasks IH]; simpl; [done|].
  destruct t as [n a|[r|e]]; simpl; try done; [lia|].
  intros Hr Ha. destruct (all_returned tasks); [done|]. auto.
Qed.

Lemma first_raised_Some tasks e :
  first_raised tasks = Some e → Finished (Raise e) ∈ tasks.
Proof.
  induction tasks as [|t tasks IH]; simpl; [done|].
  destruct t as [n a|[r|e']].
  - intros H. apply list_elem_of_further; auto.
  - intros H. apply list_elem_of_further; auto.
  - intros [= ->]. apply list_elem_of_here.
Qed.

Lemma eventual_after_turns n tasks :
  map eventual (after_turns n tasks) = map eventual tasks.
Proof.
  revert tasks. induction n as [|n IH]; intros tasks; simpl; [done|].
  rewrite IH, map_map. apply map_ext, eventual_turn.
Qed.

(** With fuel for the longest task, [gather] resumes its caller: at the
    first turn at which a task has raised or all have returned, with the
    tasks as they are at that turn. *)
Lemma gather_spec fuel tasks :
  max_remaining tasks ≤ fuel →
  ∃ T outcome,
    gather fuel tasks = Some (outcome, after_turns T tasks) ∧
    (∀ T', T' < T →
       first_raised (after_turns T' tasks) = None ∧
       all_returned (after_turns T' tasks) = None) ∧
    match outcome with
    | Return rs =>
        first_raised (after_turns T tasks) = None ∧
        all_returned (after_turns T tasks) = Some rs
    | Raise e => first_raised (after_turns T tasks) = Some e
    end.
Proof.
  revert tasks. induction fuel as [|fuel IH]; intros tasks Hfuel.
  - simpl. destruct (first_raised tasks) as [e|] eqn:Hr.
    { exists 0, (Raise e). split_and!; [done | lia | done]. }
    destruct (all_returned tasks) as [rs|] eqn:Ha.
    { exists 0, (Return rs). split_and!; [done | lia | done | done]. }
    pose proof (all_returned_None tasks Hr Ha). lia.
  - simpl. destruct (first_raised tasks) as [e|] eqn:Hr.
    { exists 0, (Raise e). split_and!; [done | lia | done]. }
    destruct (all_returned tasks) as [rs|] eqn:Ha.
    { exists 0, (Return rs). split_and!; [done | lia | done | done]. }
    destruct (IH (map turn tasks)) as (T & outcome & Hg & Hbefore & Hout).
    { rewrite max_remaining_turn. lia. }
    exists (S T), outcome. split_and!; [done | | done].
    intros [|T'] HT'; [done|]. apply Hbefore. lia.
Qed.

Lemma gather_fuel fuel tasks r :
  gather fuel tasks = Some r → gather (S fuel) tasks = Some r.
Proof.
  revert tasks. induction fuel as [|fuel IH]; intros tasks.
  - simpl. destruct (first_raised tasks); [done|]. by destruct (all_returned tasks).
  - intros Hg. simpl in Hg |- *.
    destruct (first_raised tasks); [done|]. destruct (all_returned tasks); [done|].
    by apply IH in Hg.
Qed.

Lemma gather_fuel_le fuel fuel' tasks r :
  fuel ≤ fuel' → gather fuel tasks = Some r → gather fuel' tasks = Some r.
Proof.
  induction 1 as [|fuel' Hle IH]; [done|]. intros Hg. by apply gather_fuel, IH.
Qed.

Section load_saved_accounts.
(** For the resume of an account: the number of turns of the loop that
    [client.resume] takes, and whether it then raises. *)
Variable net_resume_turns : string → nat.
Variable net_resume : MatrixClient → string → string → string → option Exn.

(** The inner [resume(user_id, info)] up to its suspension in
    [client.resume]: [resume_client] has registered the client. *)
Definition resume_start (b : Backend) (uid : string) (info : SavedAccount)
    : Backend * TaskState :=
  let client := MatrixClient_new uid (sa_homeserver info) (Some (sa_device_id info)) in
  let b := ((clients_set uid client;; accounts_set uid (Account_new uid)) b).2 in
  (b, Running (net_resume_turns uid)
        match net_resume client uid (sa_token info) (sa_device_id info) with
        | None => Return uid
        | Some e => Raise e
        end).

(** The tasks start in the order of the saved accounts. *)
Fixpoint resume_all_start (b : Backend) (accounts : odict string SavedAccount)
    : Backend * list TaskState :=
  match accounts with
  | [] => (b, [])
  | (uid, info) :: accounts =>
      let '(b, t) := resume_start b uid info in
      let '(b, ts) := resume_all_start b accounts in
      (b, t :: ts)
  end.

(** [load_saved_accounts]: the outcome, the backend and the tasks at the
    moment the caller is resumed. *)
Definition load_saved_accounts (fuel : nat) (b : Backend)
    : option (Result (list string) * Backend * list TaskState) :=
  let '(b, tasks) := resume_all_start b (saved_accounts b) in
  '(outcome, tasks) ← gather fuel tasks;
  Some (outcome, b, tasks).

(** What the resume of a saved account comes to. *)
Definition resume_answer (uid : string) (info : SavedAccount) : Result string :=
  match net_resume (MatrixClient_new uid (sa_homeserver info) (Some (sa_device_id info)))
          uid (sa_token info) (sa_device_id info) with
  | None => Return uid
  | Some e => Raise e
  end.
(** Turns of the loop after which every resume is over. *)
Definition resume_turns_bound (accounts : odict string SavedAccount) : nat :=
  foldr Nat.max 0 (map (λ a, S (net_resume_turns a.1)) accounts).

Lemma resume_all_start_tasks b accounts :
  (resume_all_start b accounts).2 =
    map (λ a, Running (net_resume_turns a.1) (resume_answer a.1 a.2)) accounts.
Proof.
  revert b. induction accounts as [|[uid info] accounts IH]; intros b; simpl; [done|].
  specialize (IH (resume_start b uid info).1).
  destruct (resume_all_start _ accounts) as [b' ts]. simpl in *. by rewrite IH.
Qed.

Lemma bool_decide_elem_cons (uid u : string) (ks : list string) :
  bool_decide (uid ∈ u :: ks) = bool_decide (u = uid) || bool_decide (uid ∈ ks).
Proof.
  destruct (decide (u = uid)) as [->|Hne].
  - rewrite (bool_decide_true (uid = uid)) by done.
    by rewrite bool_decide_true by apply list_elem_of_here.
  - rewrite (bool_decide_false (u = uid)) by done. simpl.
    apply bool_decide_ext. rewrite elem_of_cons.
    split; [intros [?|?]; [congruence | done] | by right].
Qed.

Lemma resume_all_start_clients b accounts uid :
  od_mem uid (clients (resume_all_start b accounts).1) =
    od_mem uid (clients b) || bool_decide (uid ∈ od_keys accounts).
Proof.
  revert b. induction accounts as [|[u info] accounts IH]; intros b; simpl.
  - by rewrite orb_false_r.
  - specialize (IH (resume_start b u info).1).
    destruct (resume_all_start _ accounts) as [b' ts]. simpl in *.
    rewrite IH, od_mem_set, bool_decide_elem_cons.
    destruct (decide (u = uid)) as [->|Hne].
    + rewrite (bool_decide_true (uid = uid)) by done. simpl. by rewrite orb_true_r.
    + by rewrite (bool_decide_false (u = uid)) by done.
Qed.

Lemma resume_all_start_accounts b accounts uid :
  od_mem uid (models_Account (resume_all_start b accounts).1) =
    od_mem uid (models_Account b) || bool_decide (uid ∈ od_keys accounts).
Proof.
  revert b. induction accounts as [|[u info] accounts IH]; intros b; simpl.
  - by rewrite orb_false_r.
  - specialize (IH (resume_start b u info).1).
    destruct (resume_all_start _ accounts) as [b' ts]. simpl in *.
    rewrite IH, od_mem_set, bool_decide_elem_cons.
    destruct (decide (u = uid)) as [->|Hne].
    + rewrite (bool_decide_true (uid = uid)) by done. simpl. by rewrite orb_true_r.
    + by rewrite (bool_decide_false (u = uid)) by done.
Qed.

Lemma max_remaining_start accounts :
  max_remaining
    (map (λ a, Running (net_resume_turns a.1) (resume_answer a.1 a.2)) accounts)
  = resume_turns_bound accounts.
Proof.
  unfold max_remaining, resume_turns_bound.
  induction accounts as [|a accounts IH]; simpl; [done|]. by rewrite IH.
Qed.

(** C1, as the code has it. [load_saved_accounts] starts one resume
    per saved account, in the order of the file, and every account is
    registered in [self.clients] and in the [Account] model whatever its
    resume comes to. With fuel for the longest resume the caller is
    resumed, at the first turn of the loop at which a resume has raised
    or all have returned; the tasks are then as that many turns left
    them, none is cancelled. When no resume raises, that is after all of
    them finished, with the user ids in the order of the file. When a
    resume raises, the caller gets a single exception, the first one
    raised, which is that of a saved account whose resume raised: there
    is no outcome per account. *)
Theorem load_saved_accounts_outcome (b : Backend) :
  let tasks0 := (resume_all_start b (saved_accounts b)).2 in
  ∃ outcome b' T,
    (∀ fuel, resume_turns_bound (saved_accounts b) ≤ fuel →
       load_saved_accounts fuel b = Some (outcome, b', after_turns T tasks0)) ∧
    length tasks0 = length (saved_accounts b) ∧
    (∀ T', T' < T → first_raised (after_turns T' tasks0) = None ∧
                    all_returned (after_turns T' tasks0) = None) ∧
    (∀ uid, uid ∈ od_keys (saved_accounts b) →
       od_mem uid (clients b') = true ∧ od_mem uid (models_Account b') = true) ∧
    ((∀ uid info, (uid, info) ∈ saved_accounts b →
        resume_answer uid info = Return uid) →
     outcome = Return (od_keys (saved_accounts b)) ∧
     Forall (λ t, finished t = true) (after_turns T tasks0)) ∧
    ((∃ uid info e, (uid, info) ∈ saved_accounts b ∧
                    resume_answer uid info = Raise e) →
     ∃ uid info e, (uid, info) ∈ saved_accounts b ∧
                   resume_answer uid info = Raise e ∧
                   first_raised (after_turns T tasks0) = Some e ∧
                   outcome = Raise e).
Proof.
  set (accounts := saved_accounts b).
  set (start := resume_all_start b accounts). simpl.
  pose proof (resume_all_start_tasks b accounts) as Htasks. fold start in Htasks.
  destruct (gather_spec (resume_turns_bound accounts) start.2)
    as (T & outcome & Hg & Hbefore & Hout).
  { by rewrite Htasks, max_remaining_start. }
  assert (map eventual (after_turns T start.2)
          = map (λ a, resume_answer a.1 a.2) accounts) as Hans.
  { rewrite eventual_after_turns, Htasks, map_map. done. }
  exists outcome, start.1, T. split_and!.
  - intros fuel Hfuel. unfold load_saved_accounts. fold accounts. fold start.
    destruct start as [b' ts]. simpl in *.
    by rewrite (gather_fuel_le _ fuel _ _ Hfuel Hg).
  - rewrite Htasks. apply length_map.
  - done.
  - intros uid Hin. unfold start.
    rewrite resume_all_start_clients, resume_all_start_accounts.
    rewrite bool_decide_true by done. by rewrite !orb_true_r.
  - intros Hok. destruct outcome as [rs|e].
    + destruct Hout as [_ Hret].
      apply all_returned_Some in Hret as [Hrs Hfin]. split; [|done]. f_equal.
      rewrite Hans in Hrs. clear -Hrs Hok. fold accounts in Hok.
      revert rs Hrs. induction accounts as [|[uid info] accounts IH];
        intros [|r rs] Hrs; simpl in *; try done.
      injection Hrs as Hr Hrs.
      rewrite (Hok uid info) in Hr by apply list_elem_of_here.
      injection Hr as <-. f_equal. apply IH; [|done].
      intros u i Hin. apply Hok. by apply list_elem_of_further.
    + apply first_raised_Some in Hout.
      assert (Raise e ∈ map eventual (after_turns T start.2)) as Hx.
      { apply elem_of_map. by exists (Finished (Raise e)). }
      rewrite Hans in Hx.
      apply elem_of_map in Hx as ([uid info] & Heq & Hin). simpl in Heq.
      rewrite (Hok uid info) in Heq by done. done.
  - intros (uid & info & e & Hin & He). destruct outcome as [rs|e'].
    + destruct Hout as [_ Hret].
      apply all_returned_Some in Hret as [Hrs _]. rewrite Hans in Hrs.
      assert (resume_answer uid info ∈ map Return rs) as Hx.
      { rewrite <- Hrs. apply elem_of_map. by exists (uid, info). }
      rewrite He in Hx. apply elem_of_map in Hx as (r & Hr & _). done.
    + pose proof (first_raised_Some _ _ Hout) as Hin'.
      assert (Raise e' ∈ map eventual (after_turns T start.2)) as Hx.
      { apply elem_of_map. by exists (Finished (Raise e')). }
      rewrite Hans in Hx.
      apply elem_of_map in Hx as ([uid' info'] & Heq & Hin''). simpl in Heq.
      by exists uid', info', e'.
Qed.

(** *** Registrations of the resumes *)

Lemma resume_all_start_keys b accounts :
  NoDup (od_keys (clients b) ++ od_keys accounts) →
  od_keys (clients (resume_all_start b accounts).1) = od_keys (clients b) ++ od_keys accounts.
Proof.
  revert b. induction accounts as [|[u info] accounts IH]; intros b Hnd; simpl.
  - by rewrite app_nil_r.
  - specialize (IH (resume_start b u info).1).
    destruct (resume_all_start _ accounts) as [b' ts]. simpl in *.
    assert (od_get u (clients b) = None) as Hfresh.
    { apply od_get_None. apply NoDup_app in Hnd as (_ & Hdisj & _).
      intros Hin. apply (Hdisj u Hin). apply list_elem_of_here. }
    rewrite od_keys_set_absent in IH by done.
    rewrite IH; [by rewrite <- app_assoc|].
    by rewrite <- app_assoc.
Qed.

Lemma resume_all_start_account_keys b accounts :
  NoDup (od_keys (models_Account b) ++ od_keys accounts) →
  od_keys (models_Account (resume_all_start b accounts).1) =
    od_keys (models_Account b) ++ od_keys accounts.
Proof.
  revert b. induction accounts as [|[u info] accounts IH]; intros b Hnd; simpl.
  - by rewrite app_nil_r.
  - specialize (IH (resume_start b u info).1).
    destruct (resume_all_start _ accounts) as [b' ts]. simpl in *.
    assert (od_get u (models_Account b) = None) as Hfresh.
    { apply od_get_None. apply NoDup_app in Hnd as (_ & Hdisj & _).
      intros Hin. apply (Hdisj u Hin). apply list_elem_of_here. }
    rewrite od_keys_set_absent in IH by done.
    rewrite IH; [by rewrite <- app_assoc|].
    by rewrite <- app_assoc.
Qed.

Lemma load_saved_accounts_backend fuel b outcome b' tasks :
  load_saved_accounts fuel b = Some (outcome, b', tasks) →
  b' = (resume_all_start b (saved_accounts b)).1.
Proof.
  unfold load_saved_accounts.
  destruct (resume_all_start b (saved_accounts b)) as [b1 ts]. simpl.
  destruct (gather fuel ts) as [[o ts']|]; simpl; [|done]. by intros [= _ <- _].
Qed.

(** X19. With no saved account, [load_saved_accounts] returns the empty
    tuple at once, before any turn of the loop, and leaves the backend as
    it is. *)
Theorem load_saved_accounts_empty (fuel : nat) (b : Backend) :
  saved_accounts b = [] →
  load_saved_accounts fuel b = Some (Return [], b, []).
Proof.
  intros Hs. unfold load_saved_accounts. rewrite Hs. simpl. by destruct fuel.
Qed.

(** X20. [load_saved_accounts] keeps [self.clients] and the [Account]
    model in lockstep, whatever the resumes come to. *)
Theorem load_saved_accounts_lockstep
    (fuel : nat) (b b' : Backend) (outcome : Result (list string))
    (tasks : list TaskState) :
  lockstep b →
  load_saved_accounts fuel b = Some (outcome, b', tasks) →
  lockstep b'.
Proof.
  intros Hb Hload uid. apply load_saved_accounts_backend in Hload as ->.
  rewrite resume_all_start_clients, resume_all_start_accounts. by rewrite Hb.
Qed.

(** X21. On a backend without clients nor accounts, [load_saved_accounts]
    registers the clients and the accounts in the order of the saved
    accounts, whatever the order in which the resumes finish. *)
Theorem load_saved_accounts_order
    (fuel : nat) (b b' : Backend) (outcome : Result (list string))
    (tasks : list TaskState) :
  od_wf (saved_accounts b) →
  clients b = [] → models_Account b = [] →
  load_saved_accounts fuel b = Some (outcome, b', tasks) →
  od_keys (clients b') = od_keys (saved_accounts b) ∧
  od_keys (models_Account b') = od_keys (saved_accounts b).
Proof.
  intros Hwf Hc Ha Hload. apply load_saved_accounts_backend in Hload as ->.
  rewrite resume_all_start_keys, resume_all_start_account_keys;
    rewrite ?Hc, ?Ha; done.
Qed.
End load_saved_accounts.

(** *** Concrete runs *)

Local Open Scope string_scope.

Definition ex_net_login (client : MatrixClient) (password : string) : Result string :=
  if decide (password = "hunter2")
  then Return ("@" ++ mc_user client ++ ":example.org")
  else Raise (MatrixError "M_FORBIDDEN").

Definition ex_net_resume (client : MatrixClient) (uid token device_id : string)
    : option Exn :=
  if decide (token = "stale") then Some (MatrixError "M_UNKNOWN_TOKEN") else None.

Definition ex_net_logout (client : MatrixClient) : option Exn := None.

Definition ex_saved : odict string SavedAccount :=
  [("@a1:example.org", mkSaved "token1" "DEV1" "https://example.org");
   ("@a2:example.org", mkSaved "stale" "DEV2" "https://example.org");
   ("@a3:example.org", mkSaved "token3" "DEV3" "https://example.org")].

Definition ex_net_resume_turns (uid : string) : nat :=
  if decide (uid = "@a1:example.org") then 5
  else if decide (uid = "@a2:example.org") then 1
  else 3.

Example ex_login_then_logout :
  let b := Backend_init [] in
  let b := after ex_net_login ex_net_resume ex_net_logout b
             (Login "alice" "hunter2" None "https://example.org") in
  let b' := after ex_net_login ex_net_resume ex_net_logout b
              (Logout "@alice:example.org") in
  od_keys (clients b) = ["@alice:example.org"] ∧
  od_keys (models_Account b) = ["@alice:example.org"] ∧
  clients b' = [] ∧ models_Account b' = [].
Proof. by vm_compute. Qed.

Lemma login_client_outcome_witness :
  login_client ex_net_login "alice" "wrong" None "https://example.org"
    (Backend_init ex_saved) =
    (Raise (MatrixError "M_FORBIDDEN"),
     mkBackend [] [] ex_saved
       [EvClose (MatrixClient_new "alice" "https://example.org" None)]) ∧
  login_client ex_net_login "alice" "hunter2" None "https://example.org"
    (Backend_init ex_saved) =
    (Return "@alice:example.org",
     mkBackend
       [("@alice:example.org",
         mkClient "alice" "https://example.org" None "@alice:example.org" false)]
       [("@alice:example.org", Account_new "@alice:example.org")]
       ex_saved []).
Proof.
  split.
  - apply (login_client_outcome ex_net_login (Backend_init ex_saved)
             "alice" "wrong" None "https://example.org"). reflexivity.
  - apply (login_client_outcome ex_net_login (Backend_init ex_saved)
             "alice" "hunter2" None "https://example.org"). reflexivity.
Defined.

(** A session that is registered during the second sleep. *)
Definition ex_client_a : MatrixClient :=
  mkClient "@a:example.org" "https://example.org" (Some "DEV") "@a:example.org" false.
Definition ex_client_b : MatrixClient :=
  mkClient "@b:example.org" "https://example.org" (Some "DEV") "@b:example.org" true.
Definition ex_client_c : MatrixClient :=
  mkClient "@c:example.org" "https://example.org" (Some "DEV") "@c:example.org" true.

Definition ex_clients_at (k : nat) : odict string MatrixClient :=
  if (k <? 2)%nat then [] else [("@a:example.org", ex_client_a)].

Definition ex_clients_syncing (k : nat) : odict string MatrixClient :=
  [("@a:example.org", ex_client_a); ("@b:example.org", ex_client_b);
   ("@c:example.org", ex_client_c)].

Example ex_get_client :
  get_client 5 ex_clients_at "@a:example.org" =
    Some (ex_client_a, [EvSleep poll_interval; EvSleep poll_interval]).
Proof. reflexivity. Qed.

Example ex_get_client_warns :
  omap (λ ev, match ev with EvWarning _ _ s => Some s | _ => None end)
    (waiting_events get_client_warning ["@a:example.org"] 100 0 250) = [10; 20].
Proof. by vm_compute. Qed.

Example ex_get_any_client :
  get_any_client 1 ex_clients_syncing = Some (ex_client_b, []).
Proof. reflexivity. Qed.

Lemma get_client_resolves_witness :
  ∃ evs,
    get_client 3 ex_clients_at "@a:example.org" = Some (ex_client_a, evs) ∧
    sleeps evs = [(1 # 10)%Q; (1 # 10)%Q].
Proof.
  destruct (get_client_resolves ex_clients_at "@a:example.org" 2 ex_client_a)
    as (_ & evs & Hres & Hsleeps & _).
  - intros k Hk. destruct k as [|[|k]]; [reflexivity | reflexivity | lia].
  - reflexivity.
  - exists evs. split; [apply Hres; lia | exact Hsleeps].
Defined.

Lemma get_any_client_first_syncing_witness :
  ∃ pre client post,
    od_values (ex_clients_syncing 0) = (pre ++ client :: post)%list ∧
    Forall (λ c, syncing c = false) pre ∧ syncing client = true ∧
    ∃ evs, get_any_client 1 ex_clients_syncing = Some (client, evs).
Proof.
  destruct (get_any_client_first_syncing ex_clients_syncing 0)
    as ((pre & client & post & Heq & Hpre & Hs & Hret) & _).
  - intros k Hk. lia.
  - exists ex_client_c. split; [|reflexivity].
    apply list_elem_of_further, list_elem_of_further, list_elem_of_here.
  - exists pre, client, post. split_and!; try done.
    destruct (Hret 1) as (evs & Hevs & _); [lia|]. by exists evs.
Defined.

Example ex_mainpane :
  let rooms uid :=
    if decide (uid = "@a:example.org")
    then [("!z:example.org", mkRoom "!z:example.org" []);
          ("!k:example.org", mkRoom "!k:example.org" [])]
    else [] in
  let b := mkBackend [] [("@b:example.org", Account_new "@b:example.org");
                         ("@a:example.org", Account_new "@a:example.org")] [] [] in
  map (λ r, (row_type r, row_id r, row_user_id r))
    (get_flat_mainpane_data (λ _, tt) (λ _, tt) rooms b) =
  [("Account", "@a:example.org", "@a:example.org");
   ("Room", "@a:example.org/!k:example.org", "@a:example.org");
   ("Room", "@a:example.org/!z:example.org", "@a:example.org");
   ("Account", "@b:example.org", "@b:example.org")].
Proof. by vm_compute. Qed.

(** **** One resume out of three fails *)

(** The claim in the words of the specification: [resumeAll] waits for
    all the resumes to finish and gathers the outcome of each account; the
    failure of one is not propagated as the failure of the whole. *)
Definition gathers_outcomes
    (r : option (Result (list string) * Backend * list TaskState)) : Prop :=
  ∃ rs b tasks, r = Some (Return rs, b, tasks) ∧
                Forall (λ t, finished t = true) tasks.

(** C1, as the specification states it, fails: with three saved
    accounts of which the second has a stale token, [load_saved_accounts]
    raises the error of the second as soon as it occurs, while the resumes
    of the first and of the third are still running; no outcome per
    account is gathered. *)
Lemma load_saved_accounts_raises_first_failure :
  option_map (λ r, (r.1.1, r.2))
    (load_saved_accounts ex_net_resume_turns ex_net_resume 10 (Backend_init ex_saved)) =
    Some (Raise (MatrixError "M_UNKNOWN_TOKEN"),
          [Running 3 (Return "@a1:example.org");
           Finished (Raise (MatrixError "M_UNKNOWN_TOKEN"));
           Running 1 (Return "@a3:example.org")]) ∧
  ¬ gathers_outcomes
      (load_saved_accounts ex_net_resume_turns ex_net_resume 10 (Backend_init ex_saved)).
Proof.
  split.
  - by vm_compute.
  - intros (rs & b & tasks & Heq & _). vm_compute in Heq. discriminate Heq.
Qed.

(** **** Two calls of [get_profile] for one user *)

Definition ex_net_get_profile (uid : string) : Result Profile :=
  Return ("profile of " ++ uid).

(** C2 fails on the code. Two calls of [get_profile] for the same
    user, on an empty cache and with a client that is syncing
    ([ex_clients_syncing]): the first call misses the cache, takes the
    lock and sends its request; the second misses the cache too and waits
    for the lock; the first fills the cache and releases the lock; the
    second then takes the lock and, the cache not being looked at under
    the lock, sends a second request for a profile that is now cached. *)
Theorem get_profile_redundant_fetch :
  let u := "@u:example.org" in
  let st := get_profile_run ex_net_get_profile ex_clients_syncing
              (get_profile_calls ∅ [u; u]) [0; 1; 0] in
  let st' := get_profile_step ex_net_get_profile ex_clients_syncing st 1 in
  calls st = [(u, Returned ("profile of " ++ u)); (u, WaitingLock)] ∧
  profile_cache st !! u = Some ("profile of " ++ u) ∧
  fetches st = [(0, u)] ∧
  calls st' = [(u, Returned ("profile of " ++ u)); (u, Fetching)] ∧
  fetches st' = [(0, u); (1, u)].
Proof. by vm_compute. Qed.

(** **** More concrete runs *)

Definition ex_logged_in : Backend :=
  (login_client ex_net_login "alice" "hunter2" None "https://example.org"
     (Backend_init ex_saved)).2.

Definition ex_alice : MatrixClient :=
  mkClient "alice" "https://example.org" None "@alice:example.org" false.

Lemma logout_client_unregistered_witness :
  od_get "@a2:example.org" (clients (Backend_init ex_saved)) = None ∧
  od_keys (saved_accounts
             (logout_client ex_net_logout "@a2:example.org" (Backend_init ex_saved)).2)
  = ["@a1:example.org"; "@a3:example.org"].
Proof.
  split; [reflexivity|].
  rewrite (logout_client_unregistered ex_net_logout (Backend_init ex_saved)
             "@a2:example.org" eq_refl).
  reflexivity.
Defined.

Lemma logout_client_registered_witness :
  od_get "@alice:example.org" (clients ex_logged_in) = Some ex_alice ∧
  logout_client ex_net_logout "@alice:example.org" ex_logged_in =
    (Return tt, mkBackend [] [] ex_saved [EvLogout ex_alice]).
Proof.
  split; [reflexivity|].
  rewrite (logout_client_registered ex_net_logout ex_logged_in
             "@alice:example.org" ex_alice eq_refl).
  reflexivity.
Defined.

Lemma login_then_logout_witness :
  clients
    (logout_client ex_net_logout "@alice:example.org"
       (login_client ex_net_login "alice" "hunter2" None "https://example.org"
          (Backend_init ex_saved)).2).2 = [] ∧
  models_Account
    (logout_client ex_net_logout "@alice:example.org"
       (login_client ex_net_login "alice" "hunter2" None "https://example.org"
          (Backend_init ex_saved)).2).2 = [].
Proof.
  destruct (login_then_logout ex_net_login ex_net_logout (Backend_init ex_saved)
              "alice" "hunter2" None "https://example.org" "@alice:example.org"
              eq_refl eq_refl eq_refl eq_refl) as (_ & _ & Hc & Ha).
  split; [exact Hc | exact Ha].
Defined.

Lemma login_client_failure_witness :
  login_client ex_net_login "alice" "wrong" None "https://example.org"
    (Backend_init ex_saved) =
    (Raise (MatrixError "M_FORBIDDEN"),
     mkBackend [] [] ex_saved
       [EvClose (MatrixClient_new "alice" "https://example.org" None)]).
Proof.
  apply (login_client_failure ex_net_login (Backend_init ex_saved)
           "alice" "wrong" None "https://example.org" (MatrixError "M_FORBIDDEN")).
  reflexivity.
Defined.

(** A session that is registered after 250 failed polls. *)
Definition ex_clients_late (k : nat) : odict string MatrixClient :=
  if (k <? 250)%nat then [] else [("@b:example.org", ex_client_b)].

Lemma ex_clients_late_before k :
  (k < 250)%nat → od_get "@b:example.org" (ex_clients_late k) = None.
Proof.
  intros Hk. unfold ex_clients_late.
  destruct (Nat.ltb_spec k 250) as [_|Hge]; [reflexivity | lia].
Defined.

Lemma ex_clients_late_not_syncing k :
  (k < 250)%nat → first_syncing (od_values (ex_clients_late k)) = None.
Proof.
  intros Hk. unfold ex_clients_late.
  destruct (Nat.ltb_spec k 250) as [_|Hge]; [reflexivity | lia].
Defined.

Lemma get_client_warnings_witness :
  ∃ evs,
    get_client 251 ex_clients_late "@b:example.org" = Some (ex_client_b, evs) ∧
    warnings evs = [(get_client_warning, ["@b:example.org"], 10);
                    (get_client_warning, ["@b:example.org"], 20)].
Proof.
  destruct (get_client_warnings ex_clients_late "@b:example.org" 250 ex_client_b
              ex_clients_late_before eq_refl) as (evs & Hres & Hw & _).
  exists evs. split; [apply Hres; lia|]. rewrite Hw. reflexivity.
Defined.

Lemma get_any_client_warnings_witness :
  ∃ evs,
    get_any_client 251 ex_clients_late = Some (ex_client_b, evs) ∧
    warnings evs = [].
Proof.
  destruct (get_any_client_warnings ex_clients_late 250 ex_client_b
              ex_clients_late_not_syncing eq_refl) as (evs & Hres & _ & Hnone).
  exists evs. split; [apply Hres; lia | apply Hnone; lia].
Defined.

Lemma get_profile_cache_sound_witness :
  let u := "@u:example.org" in
  profile_cache
    (get_profile_run ex_net_get_profile ex_clients_syncing
       (get_profile_calls ∅ [u; u]) [0; 1; 0]) !! u
  = Some ("profile of " ++ u) ∧
  ((∅ : gmap string Profile) !! u = Some ("profile of " ++ u) ∨
   ex_net_get_profile u = Return ("profile of " ++ u)).
Proof.
  assert (profile_cache
            (get_profile_run ex_net_get_profile ex_clients_syncing
               (get_profile_calls ∅ ["@u:example.org"; "@u:example.org"]) [0; 1; 0])
            !! "@u:example.org" = Some ("profile of " ++ "@u:example.org")) as Hc
    by (by vm_compute).
  split; [exact Hc|].
  exact (get_profile_cache_sound ex_net_get_profile ex_clients_syncing ∅ _ _ _ _ Hc).
Defined.

(** A client starts syncing during the second sleep. *)
Definition ex_clients_syncing_late (k : nat) : odict string MatrixClient :=
  if (k <? 2)%nat
  then [("@a:example.org", ex_client_a)]
  else [("@a:example.org", ex_client_a); ("@b:example.org", ex_client_b)].

Lemma get_profile_sequential_calls_witness :
  let u := "@u:example.org" in
  ex_net_get_profile u = Return ("profile of " ++ u) ∧
  first_syncing (od_values (ex_clients_syncing_late 2)) = Some ex_client_b ∧
  get_profile_run ex_net_get_profile ex_clients_syncing_late
    (get_profile_calls ∅ [u; u; u]) [0; 0; 0; 0; 1; 2]
  = mkProfiles {[u := "profile of " ++ u]} ∅
      [(u, Returned ("profile of " ++ u)); (u, Returned ("profile of " ++ u));
       (u, Returned ("profile of " ++ u))]
      [(0, u)] 6 [EvSleep poll_interval; EvSleep poll_interval].
Proof.
  split_and!; [reflexivity | reflexivity |].
  apply (get_profile_sequential_calls ex_net_get_profile ex_clients_syncing_late
           "@u:example.org" ("profile of " ++ "@u:example.org") ex_client_b 2 2 eq_refl).
  - intros k Hk. destruct k as [|[|k]]; [reflexivity | reflexivity | lia].
  - reflexivity.
Defined.

Lemma load_saved_accounts_empty_witness :
  saved_accounts (Backend_init []) = [] ∧
  load_saved_accounts ex_net_resume_turns ex_net_resume 0 (Backend_init []) =
    Some (Return [], Backend_init [], []).
Proof.
  split; [reflexivity|].
  apply (load_saved_accounts_empty ex_net_resume_turns ex_net_resume 0
           (Backend_init []) eq_refl).
Defined.

(** The backend when [load_saved_accounts] raises for the stale token. *)
Definition ex_loaded : Backend :=
  (resume_all_start ex_net_resume_turns ex_net_resume (Backend_init ex_saved) ex_saved).1.

Lemma ex_load :
  load_saved_accounts ex_net_resume_turns ex_net_resume 10 (Backend_init ex_saved) =
    Some (Raise (MatrixError "M_UNKNOWN_TOKEN"), ex_loaded,
          [Running 3 (Return "@a1:example.org");
           Finished (Raise (MatrixError "M_UNKNOWN_TOKEN"));
           Running 1 (Return "@a3:example.org")]).
Proof. by vm_compute. Defined.

Lemma load_saved_accounts_lockstep_witness :
  lockstep (Backend_init ex_saved) ∧ lockstep ex_loaded.
Proof.
  assert (lockstep (Backend_init ex_saved)) as Hb by (intros uid; reflexivity).
  split; [exact Hb|].
  exact (load_saved_accounts_lockstep ex_net_resume_turns ex_net_resume 10
           (Backend_init ex_saved) ex_loaded _ _ Hb ex_load).
Defined.

Lemma load_saved_accounts_order_witness :
  od_wf ex_saved ∧
  od_keys (clients ex_loaded) =
    ["@a1:example.org"; "@a2:example.org"; "@a3:example.org"].
Proof.
  assert (od_wf (saved_accounts (Backend_init ex_saved))) as Hwf.
  { unfold od_wf. simpl. apply (bool_decide_unpack _). reflexivity. }
  split; [exact Hwf|].
  destruct (load_saved_accounts_order ex_net_resume_turns ex_net_resume 10
              (Backend_init ex_saved) ex_loaded _ _ Hwf eq_refl eq_refl ex_load)
    as [-> _].
  reflexivity.
Defined.

End Backend.
